(** * The [generate-idea] edge function (supabase/functions/generate-idea/index.ts)

    A shallow embedding of the request handler: the in-memory rate limiter,
    the input sanitizer and validator, the mapping of gateway failures, and
    the recovery of JSON from the model's reply.

    Conventions.
    - A JavaScript string is the list of its UTF-16 code units ([list N]);
      [lit] turns an ASCII literal of the source into such a list.
    - A JavaScript value that came out of [JSON.parse] is a [json]; a value
      that may also be [undefined] is an [option json] ([None] is
      [undefined]).
    - A JavaScript number is [NaN], an infinity, or an exact decimal
      [Dec m e] (the value m * 10^e).  Every double is such a decimal; a
      JSON literal is rounded to the nearest double ([round_decimal]) and a
      number is printed with the fewest digits that read back as it
      ([Number_toString]).  The sign of zero is left out: no code here tells
      the two zeros apart.
    - An exception is [Throw] in the [result] monad; [try]/[catch] is a match
      on it.
    - The rate-limit [Map] is a [gmap] from caller keys to records; the
      handler takes the map and returns the new one. *)

From Stdlib Require Import ZArith NArith Ascii String List Lia.
From stdpp Require Import base option list gmap.
Import ListNotations.
Local Open Scope Z_scope.

(** ** Strings *)

Fixpoint lit (s : string) : list N :=
  match s with
  | EmptyString => []
  | String a r => N_of_ascii a :: lit r
  end.

(** An ASCII literal in which the apostrophe stands for the double quote. *)
Definition qlit (s : string) : list N :=
  map (fun c => if (c =? 39)%N then 34%N else c) (lit s).

Definition str_eqb (a b : list N) : bool := bool_decide (a = b).

Definition is_empty (s : list N) : bool :=
  match s with [] => true | _ => false end.

(** ECMAScript WhiteSpace and LineTerminator code points: what
    [String.prototype.trim] removes and what [parseInt] skips. *)
Definition is_js_space (c : N) : bool :=
  ((9 <=? c) && (c <=? 13) || (c =? 32) || (c =? 160) || (c =? 5760)
   || (8192 <=? c) && (c <=? 8202) || (c =? 8232) || (c =? 8233)
   || (c =? 8239) || (c =? 8287) || (c =? 12288) || (c =? 65279))%N.

Fixpoint trimStart (s : list N) : list N :=
  match s with
  | [] => []
  | c :: t => if is_js_space c then trimStart t else s
  end.

Fixpoint trimEnd (s : list N) : list N :=
  match s with
  | [] => []
  | c :: t =>
      match trimEnd t with
      | [] => if is_js_space c then [] else [c]
      | t' => c :: t'
      end
  end.

(** [s.trim()] *)
Definition trim (s : list N) : list N := trimEnd (trimStart s).

(** [s.slice(0, n)] for [0 <= n] *)
Definition slice0 (n : nat) (s : list N) : list N := take n s.

Definition is_angle (c : N) : bool := ((c =? 60) || (c =? 62))%N.

(** [s.replace(/[<>]/g, '')] *)
Definition strip_angles (s : list N) : list N :=
  List.filter (fun c => negb (is_angle c)) s.

(** [String.prototype.toLowerCase], exact on ASCII and on the one code point
    outside ASCII whose lower case is an ASCII letter (U+212A, the Kelvin
    sign).  Other code units are kept: their lower case is not ASCII either,
    so comparing the result with the ASCII words of [VALID_DIFFICULTIES] and
    [VALID_MODES] gives what the source gives. *)
Definition lower_unit (c : N) : N :=
  (if (65 <=? c) && (c <=? 90) then c + 32 else if c =? 8490 then 107 else c)%N.

Definition toLowerCase (s : list N) : list N := map lower_unit s.

(** ** Numbers *)

Inductive number :=
  | NaN
  | PosInf
  | NegInf
  | Dec (m e : Z).

Definition of_Z (z : Z) : number := Dec z 0.

Definition isNaN (x : number) : bool :=
  match x with NaN => true | _ => false end.

(** Comparison of two exact decimals, on a common exponent. *)
Definition dec_compare (m1 e1 m2 e2 : Z) : comparison :=
  let e0 := Z.min e1 e2 in
  (m1 * 10 ^ (e1 - e0) ?= m2 * 10 ^ (e2 - e0)).

(** [x <= y] on numbers; [false] as soon as one is [NaN]. *)
Definition num_leb (x y : number) : bool :=
  match x, y with
  | NaN, _ | _, NaN => false
  | NegInf, _ => true
  | _, PosInf => true
  | PosInf, _ => false
  | _, NegInf => false
  | Dec m1 e1, Dec m2 e2 =>
      match dec_compare m1 e1 m2 e2 with Gt => false | _ => true end
  end.

(** [x > y] *)
Definition num_gtb (x y : number) : bool :=
  match x, y with
  | NaN, _ | _, NaN => false
  | _, _ => negb (num_leb x y)
  end.

(** [Math.max(x, y)] and [Math.min(x, y)] *)
Definition Math_max (x y : number) : number :=
  match x, y with
  | NaN, _ | _, NaN => NaN
  | _, _ => if num_leb x y then y else x
  end.

Definition Math_min (x y : number) : number :=
  match x, y with
  | NaN, _ | _, NaN => NaN
  | _, _ => if num_leb x y then x else y
  end.


(** *** Decimal digits *)

Definition is_digit (c : N) : bool := ((48 <=? c) && (c <=? 57))%N.

Definition digit_val (c : N) : Z := Z.of_N c - 48.

Fixpoint digits_val (acc : Z) (ds : list N) : Z :=
  match ds with
  | [] => acc
  | d :: r => digits_val (10 * acc + digit_val d) r
  end.

Fixpoint span_digits (s : list N) : list N * list N :=
  match s with
  | c :: t =>
      if is_digit c then let '(ds, r) := span_digits t in (c :: ds, r)
      else ([], s)
  | [] => ([], [])
  end.

Fixpoint uint_digits (u : Decimal.uint) : list N :=
  match u with
  | Decimal.Nil => []
  | Decimal.D0 r => 48%N :: uint_digits r
  | Decimal.D1 r => 49%N :: uint_digits r
  | Decimal.D2 r => 50%N :: uint_digits r
  | Decimal.D3 r => 51%N :: uint_digits r
  | Decimal.D4 r => 52%N :: uint_digits r
  | Decimal.D5 r => 53%N :: uint_digits r
  | Decimal.D6 r => 54%N :: uint_digits r
  | Decimal.D7 r => 55%N :: uint_digits r
  | Decimal.D8 r => 56%N :: uint_digits r
  | Decimal.D9 r => 57%N :: uint_digits r
  end.

(** The decimal digits of a natural number, most significant first
    ([48] alone for zero). *)
Definition nat_digits (z : Z) : list N := uint_digits (N.to_uint (Z.to_N z)).

(** [parseInt(s, 10)]: leading white space is skipped, then an optional
    sign, then the longest run of decimal digits; [NaN] when the run is
    empty.  With radix 10 given, a [0x] prefix is not special.  The integer
    written is kept as it is: the code has the double nearest to it, which
    is the same number up to 2^53 and is on the same side of every bound
    the handler compares it with (1, 5, 365 and 10000). *)
Definition split_sign (t : list N) : bool * list N :=
  match t with
  | c :: r =>
      if (c =? 45)%N then (true, r)
      else if (c =? 43)%N then (false, r)
      else (false, t)
  | [] => (false, t)
  end.

Definition parseInt10 (s : list N) : number :=
  let '(neg, u) := split_sign (trimStart s) in
  match fst (span_digits u) with
  | [] => NaN
  | ds => of_Z (if neg : bool then - digits_val 0 ds else digits_val 0 ds)
  end.

(** *** Doubles *)

(** The number of factors two of a positive integer. *)
Fixpoint twos (p : positive) : Z :=
  match p with
  | xO q => 1 + twos q
  | _ => 0
  end.

(** The double [M * 2^E] ([0 <= M]) as an exact decimal: an integer has
    exponent 0, a fraction has no digit zero at its end. *)
Definition of_binary (neg : bool) (M E : Z) : number :=
  match M with
  | Zpos p =>
      let k := if E <? 0 then Z.min (twos p) (- E) else 0 in
      let M' := M / 2 ^ k in
      let E' := E + k in
      let sg := if neg then -1 else 1 in
      if 0 <=? E' then Dec (sg * (M' * 2 ^ E')) 0
      else Dec (sg * (M' * 5 ^ (- E'))) E'
  | _ => Dec 0 0
  end.

(** The quotient [q] and the remainder [r] of [num / den] by [2^E], with
    the divisor [d] the remainder is out of. *)
Definition scaled_div (num den E : Z) : Z * Z * Z :=
  if 0 <=? E then
    let d := den * 2 ^ E in (num / d, num mod d, d)
  else
    let n := num * 2 ^ (- E) in (n / den, n mod den, den).

(** Round to nearest, ties to even. *)
Definition round_half_even (q r d : Z) : Z :=
  match 2 * r ?= d with
  | Lt => q
  | Gt => q + 1
  | Eq => if Z.even q then q else q + 1
  end.

(** The double nearest to [num / den] ([0 <= num], [0 < den]): 53 bits of
    significand, exponents from -1074 (subnormal numbers included) to 971,
    an infinity beyond. *)
Definition nearest_double (neg : bool) (num den : Z) : number :=
  if num =? 0 then Dec 0 0
  else
    let E0 := Z.log2 num - Z.log2 den - 53 in
    let '(q0, _, _) := scaled_div num den E0 in
    let E1 := if 2 ^ 53 <=? q0 then E0 + 1 else E0 in
    let E := Z.max E1 (-1074) in
    let '(q, r, d) := scaled_div num den E in
    let M := round_half_even q r d in
    if 1024 <? Z.log2 M + 1 + E then (if neg then NegInf else PosInf)
    else of_binary neg M E.

(** The Number value of the decimal [m * 10^e] ([0 <= m]).  A decimal
    above 10^310 is beyond the largest double and one below 10^-330 is
    under half the least one, whatever its digits. *)
Definition round_decimal (neg : bool) (m e : Z) : number :=
  if m =? 0 then Dec 0 0
  else
    let n := Z.of_nat (length (nat_digits m)) + e in
    if 310 <? n then (if neg then NegInf else PosInf)
    else if n <? -330 then Dec 0 0
    else if 0 <=? e then nearest_double neg (m * 10 ^ e) 1
    else nearest_double neg m (10 ^ (- e)).

(** *** Number::toString (radix 10) *)

Fixpoint strip_zeros_end (ds : list N) : list N :=
  match ds with
  | [] => []
  | d :: r =>
      match strip_zeros_end r with
      | [] => if (d =? 48)%N then [] else [d]
      | r' => d :: r'
      end
  end.

Definition zeros (n : Z) : list N := replicate (Z.to_nat n) 48%N.

(** The digits [ds] (no zero at either end, [k] of them) and the integer
    [n] with value = 0.ds * 10^n, printed as ECMAScript prints a number. *)
Definition print_decimal (ds : list N) (n : Z) : list N :=
  let k := Z.of_nat (length ds) in
  if (k <=? n) && (n <=? 21) then ds ++ zeros (n - k)
  else if (0 <? n) && (n <=? 21) then
    take (Z.to_nat n) ds ++ 46%N :: drop (Z.to_nat n) ds
  else if (-6 <? n) && (n <=? 0) then
    48%N :: 46%N :: zeros (- n) ++ ds
  else
    let ex := (if 0 <=? n - 1 then 43%N else 45%N) :: nat_digits (Z.abs (n - 1)) in
    match ds with
    | [d] => d :: 101%N :: ex
    | d :: r => d :: 46%N :: r ++ 101%N :: ex
    | [] => []
    end.

Definition same_value (x y : number) : bool :=
  match x, y with
  | Dec m1 e1, Dec m2 e2 =>
      match dec_compare m1 e1 m2 e2 with Eq => true | _ => false end
  | _, _ => false
  end.

(** The shortest decimal that reads back as the double [m * 10^e]
    ([0 < m], of [dm] digits): for k = 1, 2, ... the two decimals of k
    digits around it are tried, the nearer one first.  [None] when the
    value is no double. *)
Fixpoint shortest (fuel : nat) (k m dm e : Z) : option (Z * Z) :=
  match fuel with
  | O => None
  | S fuel' =>
      let ex := dm + e - k in
      let reads c := same_value (round_decimal false c ex) (Dec m e) in
      if dm <=? k then
        let c := m * 10 ^ (k - dm) in
        if reads c then Some (c, ex) else None
      else
        let u := 10 ^ (dm - k) in
        let lo := m / u in
        let hi := lo + 1 in
        match reads lo, reads hi with
        | true, true => Some (round_half_even lo (m mod u) u, ex)
        | true, false => Some (lo, ex)
        | false, true => Some (hi, ex)
        | false, false => shortest fuel' (k + 1) m dm e
        end
  end.

Definition Number_toString (x : number) : list N :=
  match x with
  | NaN => lit "NaN"
  | PosInf => lit "Infinity"
  | NegInf => lit "-Infinity"
  | Dec m e =>
      if m =? 0 then lit "0"
      else
        let a := Z.abs m in
        let all := nat_digits a in
        let dm := Z.of_nat (length all) in
        let '(c, ex) :=
          match shortest 17 1 a dm e with
          | Some ce => ce
          | None => (a, e)
          end in
        let cd := nat_digits c in
        (if m <? 0 then [45%N] else [])
          ++ print_decimal (strip_zeros_end cd) (Z.of_nat (length cd) + ex)
  end.

(** ** JSON values *)

#[warnings="-register-all"]
Inductive json :=
  | JNull
  | JBool (b : bool)
  | JNum (x : number)
  | JStr (s : list N)
  | JArr (items : list json)
  | JObj (fields : list (list N * json)).

(** [typeof v === 'string'] and [typeof v === 'number'], on a value that may
    be [undefined]. *)
Definition is_string (v : option json) : bool :=
  match v with Some (JStr _) => true | _ => false end.


Fixpoint assoc (k : list N) (fields : list (list N * json)) : option json :=
  match fields with
  | [] => None
  | (k', v) :: r => if str_eqb k k' then Some v else assoc k r
  end.

(** Defining a property on the object under construction: a repeated key
    keeps its place and takes the later value. *)
Fixpoint obj_set (k : list N) (v : json) (fields : list (list N * json))
  : list (list N * json) :=
  match fields with
  | [] => [(k, v)]
  | (k', v') :: r =>
      if str_eqb k k' then (k, v) :: r else (k', v') :: obj_set k v r
  end.

(** *** JSON.parse *)

Definition is_json_ws (c : N) : bool :=
  ((c =? 32) || (c =? 9) || (c =? 10) || (c =? 13))%N.

Fixpoint skip_ws (s : list N) : list N :=
  match s with
  | c :: t => if is_json_ws c then skip_ws t else s
  | [] => []
  end.

Fixpoint strip_prefix (p s : list N) : option (list N) :=
  match p with
  | [] => Some s
  | a :: p' =>
      match s with
      | c :: s' => if (a =? c)%N then strip_prefix p' s' else None
      | [] => None
      end
  end.

Definition hex_val (c : N) : option N :=
  (if (48 <=? c) && (c <=? 57) then Some (c - 48)
   else if (97 <=? c) && (c <=? 102) then Some (c - 87)
   else if (65 <=? c) && (c <=? 70) then Some (c - 55)
   else None)%N.

Definition hex4 (a b c d : N) : option N :=
  match hex_val a, hex_val b, hex_val c, hex_val d with
  | Some x, Some y, Some z, Some w => Some (((x * 16 + y) * 16 + z) * 16 + w)%N
  | _, _, _, _ => None
  end.

Definition simple_escape (e : N) : option N :=
  (if e =? 34 then Some 34 else if e =? 92 then Some 92
   else if e =? 47 then Some 47 else if e =? 98 then Some 8
   else if e =? 102 then Some 12 else if e =? 110 then Some 10
   else if e =? 114 then Some 13 else if e =? 116 then Some 9
   else None)%N.

(** The characters of a string literal after its opening quote, up to and
    including the closing quote. *)
Fixpoint parse_string_body (s : list N) : option (list N * list N) :=
  match s with
  | [] => None
  | c :: r =>
      if (c =? 34)%N then Some ([], r)
      else if (c =? 92)%N then
        match r with
        | e :: r1 =>
            if (e =? 117)%N then
              match r1 with
              | a :: b :: c' :: d :: r2 =>
                  match hex4 a b c' d, parse_string_body r2 with
                  | Some u, Some (cs, rest) => Some (u :: cs, rest)
                  | _, _ => None
                  end
              | _ => None
              end
            else
              match simple_escape e, parse_string_body r1 with
              | Some u, Some (cs, rest) => Some (u :: cs, rest)
              | _, _ => None
              end
        | [] => None
        end
      else if (c <? 32)%N then None
      else
        match parse_string_body r with
        | Some (cs, rest) => Some (c :: cs, rest)
        | None => None
        end
  end.

(** A number literal: [-? int frac? exp?]; a leading zero stands alone.  Its
    value is the double nearest to the decimal written. *)
Definition opt_minus (s : list N) : bool * list N :=
  match s with
  | c :: r => if (c =? 45)%N then (true, r) else (false, s)
  | [] => (false, s)
  end.

Definition parse_frac (s : list N) : option (list N * list N) :=
  match s with
  | c :: r =>
      if (c =? 46)%N then
        match span_digits r with
        | ([], _) => None
        | (fs, r') => Some (fs, r')
        end
      else Some ([], s)
  | [] => Some ([], s)
  end.

Definition parse_exp (s : list N) : option (Z * list N) :=
  match s with
  | c :: r =>
      if (c =? 101)%N || (c =? 69)%N then
        let '(eneg, r1) := split_sign r in
        match span_digits r1 with
        | ([], _) => None
        | (es, r2) =>
            Some (if eneg : bool then - digits_val 0 es else digits_val 0 es, r2)
        end
      else Some (0, s)
  | [] => Some (0, s)
  end.

Definition parse_number (s : list N) : option (number * list N) :=
  let '(neg, s1) := opt_minus s in
  let '(ints, s2) := span_digits s1 in
  match ints with
  | [] => None
  | d0 :: more =>
      if (d0 =? 48)%N && negb (is_empty more) then None
      else
        match parse_frac s2 with
        | None => None
        | Some (fs, s3) =>
            match parse_exp s3 with
            | None => None
            | Some (ex, s4) =>
                let m := digits_val 0 (ints ++ fs) in
                Some (round_decimal neg m (ex - Z.of_nat (length fs)), s4)
            end
        end
  end.

Fixpoint parse_value (fuel : nat) (s : list N) {struct fuel}
  : option (json * list N) :=
  match fuel with
  | O => None
  | S f =>
      match skip_ws s with
      | [] => None
      | c :: r =>
          if (c =? 123)%N then
            match skip_ws r with
            | c' :: r' =>
                if (c' =? 125)%N then Some (JObj [], r')
                else parse_members f r []
            | [] => None
            end
          else if (c =? 91)%N then
            match skip_ws r with
            | c' :: r' =>
                if (c' =? 93)%N then Some (JArr [], r')
                else parse_elements f r []
            | [] => None
            end
          else if (c =? 34)%N then
            match parse_string_body r with
            | Some (cs, rest) => Some (JStr cs, rest)
            | None => None
            end
          else if (c =? 45)%N || is_digit c then
            match parse_number (c :: r) with
            | Some (x, rest) => Some (JNum x, rest)
            | None => None
            end
          else
            match strip_prefix (lit "true") (c :: r) with
            | Some rest => Some (JBool true, rest)
            | None =>
                match strip_prefix (lit "false") (c :: r) with
                | Some rest => Some (JBool false, rest)
                | None =>
                    match strip_prefix (lit "null") (c :: r) with
                    | Some rest => Some (JNull, rest)
                    | None => None
                    end
                end
            end
      end
  end
with parse_elements (fuel : nat) (s : list N) (acc : list json) {struct fuel}
  : option (json * list N) :=
  match fuel with
  | O => None
  | S f =>
      match parse_value f s with
      | Some (v, r) =>
          match skip_ws r with
          | c :: r' =>
              if (c =? 44)%N then parse_elements f r' (v :: acc)
              else if (c =? 93)%N then Some (JArr (rev (v :: acc)), r')
              else None
          | [] => None
          end
      | None => None
      end
  end
with parse_members (fuel : nat) (s : list N) (acc : list (list N * json))
  {struct fuel} : option (json * list N) :=
  match fuel with
  | O => None
  | S f =>
      match skip_ws s with
      | q :: r =>
          if (q =? 34)%N then
            match parse_string_body r with
            | Some (k, r1) =>
                match skip_ws r1 with
                | c :: r2 =>
                    if (c =? 58)%N then
                      match parse_value f r2 with
                      | Some (v, r3) =>
                          match skip_ws r3 with
                          | c' :: r4 =>
                              if (c' =? 44)%N then
                                parse_members f r4 (obj_set k v acc)
                              else if (c' =? 125)%N then
                                Some (JObj (obj_set k v acc), r4)
                              else None
                          | [] => None
                          end
                      | None => None
                      end
                    else None
                | [] => None
                end
            | None => None
            end
          else None
      | [] => None
      end
  end.

(** [JSON.parse(s)]; [None] is the SyntaxError.  A call of the parser that
    succeeds needs no more fuel than the characters it consumes
    ([parse_fuel] below), so the fuel given never runs out. *)
Definition JSON_parse (s : list N) : option json :=
  match parse_value (length s) s with
  | Some (v, r) => match skip_ws r with [] => Some v | _ => None end
  | None => None
  end.

(** ** Exceptions *)

Inductive result (A : Type) :=
  | Ok (a : A)
  | Throw.
Arguments Ok {A} a.
Arguments Throw {A}.

#[global] Instance result_bind : MBind result :=
  fun A B (k : A -> result B) (r : result A) =>
    match r with
    | Ok a => k a
    | Throw => Throw
    end.

(** *** String(v)

    [String(v)], which is also what [new Error(v)] makes of its argument.
    An object is turned into a primitive by its [toString] and then its
    [valueOf]: a value parsed from JSON is never callable, so an object with
    an own property [toString] is left with [Object.prototype.valueOf] at
    best, which returns the object, and the conversion throws a TypeError;
    without one, [Object.prototype.toString] answers.  An array is joined
    with commas, [null] giving the empty string and the other elements
    their own conversion. *)
Fixpoint ToString (v : json) : result (list N) :=
  match v with
  | JNull => Ok (lit "null")
  | JBool true => Ok (lit "true")
  | JBool false => Ok (lit "false")
  | JNum x => Ok (Number_toString x)
  | JStr s => Ok s
  | JArr items =>
      (fix join (l : list json) : result (list N) :=
         match l with
         | [] => Ok []
         | x :: r =>
             match (match x with JNull => Ok [] | _ => ToString x end) with
             | Throw => Throw
             | Ok sx =>
                 match r with
                 | [] => Ok sx
                 | _ =>
                     match join r with
                     | Throw => Throw
                     | Ok sr => Ok (sx ++ 44%N :: sr)
                     end
                 end
             end
         end) items
  | JObj fields =>
      match assoc (lit "toString") fields with
      | Some _ => Throw
      | None => Ok (lit "[object Object]")
      end
  end.

Definition String_of (v : option json) : result (list N) :=
  match v with
  | None => Ok (lit "undefined")
  | Some j => ToString j
  end.

(** [v.name] for a property name that no built-in prototype defines (every
    name the handler reads is such a name): a TypeError on [undefined] and
    [null], the own property of an object, [undefined] otherwise. *)
Definition get_prop (v : option json) (name : list N) : result (option json) :=
  match v with
  | None | Some JNull => Throw
  | Some (JObj fields) => Ok (assoc name fields)
  | Some _ => Ok None
  end.

(** [v[0]] *)
Definition get_index0 (v : option json) : result (option json) :=
  match v with
  | None | Some JNull => Throw
  | Some (JArr items) => Ok (head items)
  | Some (JStr s) => Ok (match s with c :: _ => Some (JStr [c]) | [] => None end)
  | Some (JObj fields) => Ok (assoc (lit "0") fields)
  | Some _ => Ok None
  end.

(** ** Rate limiting *)

Record RateLimitRecord := { count : Z; resetTime : Z }.

Record RateCheck := { allowed : bool; remaining : Z }.

Definition RATE_LIMIT_MAX : Z := 20.
Definition RATE_LIMIT_WINDOW_MS : Z := 60 * 60 * 1000.

(** A request as the handler reads it: the method, [req.headers.get] as a
    function of the lower-case header name, and the text of the body. *)
Record Request := {
  method : list N;
  header : string -> option (list N);
  body_text : list N
}.

(** [s.split(',')[0]] *)
Fixpoint before_comma (s : list N) : list N :=
  match s with
  | [] => []
  | c :: t => if (c =? 44)%N then [] else c :: before_comma t
  end.

Definition getRateLimitKey (req : Request) : list N :=
  let forwarded := header req "x-forwarded-for" in
  let realIp := header req "x-real-ip" in
  match match forwarded with
        | Some f => trim (before_comma f)
        | None => []
        end with
  | c :: k => c :: k
  | [] =>
      match realIp with
      | Some (c :: r) => c :: r
      | _ => lit "unknown"
      end
  end.

(** [checkRateLimit(key)] at the time [now = Date.now()], on the map [m]:
    the answer and the map after the call. *)
Definition checkRateLimit (now : Z) (key : list N)
    (m : gmap (list N) RateLimitRecord)
  : RateCheck * gmap (list N) RateLimitRecord :=
  let fresh :=
    ({| allowed := true; remaining := RATE_LIMIT_MAX - 1 |},
     <[key := {| count := 1; resetTime := now + RATE_LIMIT_WINDOW_MS |}]> m) in
  match m !! key with
  | None => fresh
  | Some record =>
      if now >? resetTime record then fresh
      else if count record >=? RATE_LIMIT_MAX then
        ({| allowed := false; remaining := 0 |}, m)
      else
        let record' :=
          {| count := count record + 1; resetTime := resetTime record |} in
        ({| allowed := true; remaining := RATE_LIMIT_MAX - count record' |},
         <[key := record']> m)
  end.

(** ** Input validation *)

Definition MAX_REQUEST_SIZE : Z := 10000.
Definition MAX_STRING_LENGTH : nat := 500.
Definition MAX_IDEA_COUNT : Z := 5.
Definition MAX_DAYS : Z := 365.

Definition VALID_DIFFICULTIES : list (list N) :=
  map lit ["beginner"; "intermediate"; "advanced"; "easy"; "medium"; "hard"]%string.

Definition VALID_MODES : list (list N) :=
  map lit ["hackathon"; "startup"; "academic"; "beginner"; "personal"; "learning"]%string.

Definition includes (l : list (list N)) (s : list N) : bool :=
  existsb (str_eqb s) l.

Definition sanitizeString (str : option json) : list N :=
  match str with
  | Some (JStr s) => slice0 MAX_STRING_LENGTH (trim (strip_angles s))
  | _ => []
  end.

(** [typeof val === 'number' ? val : parseInt(String(val), 10)] *)
Definition coerce_number (val : option json) : result number :=
  match val with
  | Some (JNum x) => Ok x
  | _ => s ← String_of val; Ok (parseInt10 s)
  end.

Definition validateNumber (val : option json) (min max defaultVal : number)
  : result number :=
  num ← coerce_number val;
  Ok (if isNaN num then defaultVal else Math_min (Math_max num min) max).

(** ** Responses *)

Record Response := {
  status : Z;
  headers : list (string * string);
  body : option json   (* [None]: no body; [Some v]: JSON.stringify(v) *)
}.

Definition corsHeaders : list (string * string) :=
  [("Access-Control-Allow-Origin", "*");
   ("Access-Control-Allow-Headers",
    "authorization, x-client-info, apikey, content-type")]%string.

Definition jsonHeaders : list (string * string) :=
  corsHeaders ++ [("Content-Type", "application/json")]%string.

Definition error_body (msg : string) : option json :=
  Some (JObj [(lit "error", JStr (lit msg))]).

Definition json_error (st : Z) (msg : string) : Response :=
  {| status := st; headers := jsonHeaders; body := error_body msg |}.

Definition preflight_response : Response :=
  {| status := 200; headers := corsHeaders; body := None |}.

Definition rate_limited_response : Response :=
  {| status := 429;
     headers := jsonHeaders ++ [("Retry-After", "3600")]%string;
     body := error_body "Rate limit exceeded. Please try again later." |}.

Definition unexpected_error_response : Response :=
  json_error 500 "An unexpected error occurred. Please try again.".

Definition success_response (parsedData : json) : Response :=
  {| status := 200; headers := jsonHeaders; body := Some parsedData |}.

(** [headers.get(name)] on a response. *)
Fixpoint header_of (name : string) (hs : list (string * string)) : option string :=
  match hs with
  | [] => None
  | (n, v) :: r => if String.eqb n name then Some v else header_of name r
  end.

(** ** Recovery of the reply *)

(** The length matched by [p\n?] at the head of [s]. *)
Definition match_len (p s : list N) : option nat :=
  match strip_prefix p s with
  | Some (c :: _) => Some (if (c =? 10)%N then S (length p) else length p)
  | Some [] => Some (length p)
  | None => None
  end.

(** [s.replace(/p\n?/g, '')], scanning from the left; [skip] characters of
    the match under way are still to be dropped. *)
Fixpoint remove_all (p : list N) (skip : nat) (s : list N) : list N :=
  match s with
  | [] => []
  | c :: t =>
      match skip with
      | S k => remove_all p k t
      | O =>
          match match_len p s with
          | Some (S n) => remove_all p n t
          | _ => c :: remove_all p 0 t
          end
      end
  end.

Definition fence : list N := [96; 96; 96]%N.
Definition fence_json : list N := fence ++ lit "json".

Definition cleanContent (generatedContent : list N) : list N :=
  trim (remove_all fence 0 (remove_all fence_json 0 generatedContent)).

(** The part of [s] up to its last [c], if [c] occurs. *)
Fixpoint up_to_last (c : N) (s : list N) : option (list N) :=
  match s with
  | [] => None
  | x :: r =>
      match up_to_last c r with
      | Some u => Some (x :: u)
      | None => if (x =? c)%N then Some [x] else None
      end
  end.

Fixpoint from_first (c : N) (s : list N) : list N :=
  match s with
  | [] => []
  | x :: r => if (x =? c)%N then s else from_first c r
  end.

(** [s.match(/\{[\s\S]*\}/)]: from the first opening brace to the last
    closing brace behind it. *)
Definition brace_match (s : list N) : option (list N) :=
  up_to_last 125 (from_first 123 s).

(** [!parsedData.ideas || !Array.isArray(parsedData.ideas)], negated. *)
Definition has_ideas_array (parsedData : json) : result bool :=
  ideas ← get_prop (Some parsedData) (lit "ideas");
  Ok match ideas with Some (JArr _) => true | _ => false end.

(** The body of the inner [try]. *)
Definition direct_parse (generatedContent : list N) : result json :=
  match JSON_parse (cleanContent generatedContent) with
  | None => Throw
  | Some parsedData =>
      ok ← has_ideas_array parsedData;
      if ok : bool then Ok parsedData else Throw
  end.

Inductive recovered :=
  | Parsed (parsedData : json)
  | Failed (r : Response).

(** The inner [try] with its [catch]. *)
Definition recover (generatedContent : list N) : recovered :=
  match direct_parse generatedContent with
  | Ok parsedData => Parsed parsedData
  | Throw =>
      match brace_match generatedContent with
      | Some jsonMatch =>
          match JSON_parse jsonMatch with
          | Some parsedData => Parsed parsedData
          | None =>
              Failed (json_error 500 "Failed to process response. Please try again.")
          end
      | None =>
          Failed (json_error 500 "Failed to generate ideas. Please try again.")
      end
  end.

Definition reply_response (generatedContent : list N) : Response :=
  match recover generatedContent with
  | Parsed parsedData => success_response parsedData
  | Failed r => r
  end.

(** ** The gateway *)

(** What [fetch] gives: a rejected promise, or a response with its status
    and the text of its body ([None] when reading the body fails). *)
Inductive FetchResult :=
  | FetchReject
  | FetchResponse (st : Z) (text : option (list N)).

Definition response_ok (st : Z) : bool := (200 <=? st) && (st <=? 299).

(** From [if (!response.ok)] to the end of the outer [try]. *)
Definition handle_gateway (f : FetchResult) : result Response :=
  match f with
  | FetchReject => Throw
  | FetchResponse st text =>
      if negb (response_ok st) then
        match text with
        | None => Throw
        | Some _ =>
            Ok (if st =? 429 then
                  json_error 429 "Rate limit exceeded. Please try again in a moment."
                else if st =? 402 then
                  json_error 402 "AI credits exhausted. Please contact support."
                else
                  json_error 500 "Service temporarily unavailable. Please try again.")
        end
      else
        match text with
        | None => Throw
        | Some t =>
            match JSON_parse t with
            | None => Throw
            | Some data =>
                choices ← get_prop (Some data) (lit "choices");
                first ← get_index0 choices;
                message ← get_prop first (lit "message");
                generatedContent ← get_prop message (lit "content");
                match generatedContent with
                | None | Some JNull => Throw
                | Some (JStr s) => Ok (reply_response s)
                | Some _ => Throw
                end
            end
        end
  end.

(** ** The handler *)

Definition or_default (s : list N) (d : string) : list N :=
  match s with [] => lit d | _ => s end.

(** The user prompt, the only part of the outbound request that varies. *)
Definition userPrompt (domain audience difficulty mode skills constraints : list N)
    (time_available_days multi_idea_count : number) : list N :=
  lit "Generate " ++ Number_toString multi_idea_count
  ++ lit " unique, buildable project ideas with these parameters:

Domain: " ++ domain ++ lit "
Target Audience: " ++ audience ++ lit "
Difficulty Level: " ++ difficulty ++ lit "
Time Available: " ++ Number_toString time_available_days ++ lit " days
Project Mode: " ++ mode ++ lit "
Skills: " ++ or_default skills "Not specified" ++ lit "
Constraints: " ++ or_default constraints "None specified" ++ lit "

Requirements:
- Each idea must be completely different from the others
- Ideas should be feasible within the time constraint
- Match the difficulty level appropriately
- Consider the target audience's needs
- Respect all constraints mentioned
- Provide complete details for each idea following the JSON structure".

(** [contentLength && parseInt(contentLength, 10) > MAX_REQUEST_SIZE] *)
Definition too_large (req : Request) : bool :=
  match header req "content-length" with
  | Some (c :: r) => num_gtb (parseInt10 (c :: r)) (of_Z MAX_REQUEST_SIZE)
  | _ => false
  end.

(** The outer [try] up to the call of the gateway: an early response, or
    the user prompt to send. *)
Definition prepare (req : Request) : result (Response + list N) :=
  if too_large req then Ok (inl (json_error 413 "Request too large"))
  else
    match JSON_parse (body_text req) with
    | None => Throw
    | Some json_body =>
        let body := Some json_body in
        v_domain ← get_prop body (lit "domain");
        v_audience ← get_prop body (lit "audience");
        v_difficulty ← get_prop body (lit "difficulty");
        v_mode ← get_prop body (lit "mode");
        v_skills ← get_prop body (lit "skills");
        v_constraints ← get_prop body (lit "constraints");
        v_days ← get_prop body (lit "time_available_days");
        v_count ← get_prop body (lit "multi_idea_count");
        let domain := sanitizeString v_domain in
        let audience := sanitizeString v_audience in
        let difficulty := sanitizeString v_difficulty in
        let mode := sanitizeString v_mode in
        let skills := sanitizeString v_skills in
        let constraints := sanitizeString v_constraints in
        time_available_days ←
          validateNumber v_days (of_Z 1) (of_Z MAX_DAYS) (of_Z 7);
        multi_idea_count ←
          validateNumber v_count (of_Z 1) (of_Z MAX_IDEA_COUNT) (of_Z 3);
        if is_empty domain || is_empty audience || is_empty difficulty
           || is_empty mode then
          Ok (inl (json_error 400
                     "Missing required fields: domain, audience, difficulty, mode"))
        else if negb (includes VALID_DIFFICULTIES (toLowerCase difficulty)) then
          Ok (inl (json_error 400 "Invalid difficulty level"))
        else if negb (includes VALID_MODES (toLowerCase mode)) then
          Ok (inl (json_error 400 "Invalid mode"))
        else
          Ok (inr (userPrompt domain audience difficulty mode skills constraints
                     time_available_days multi_idea_count))
    end.

(** The outer [try]; [gateway] is the model gateway, as a function of the
    user prompt. *)
Definition try_block (gateway : list N -> FetchResult) (req : Request)
  : result Response :=
  step ← prepare req;
  match step with
  | inl early => Ok early
  | inr prompt => handle_gateway (gateway prompt)
  end.

(** The handler given to [serve]: the response, and the rate-limit map
    after the request. *)
Definition handler (now : Z) (gateway : list N -> FetchResult)
    (req : Request) (rateLimitMap : gmap (list N) RateLimitRecord)
  : Response * gmap (list N) RateLimitRecord :=
  if str_eqb (method req) (lit "OPTIONS") then (preflight_response, rateLimitMap)
  else
    let rateLimitKey := getRateLimitKey req in
    let '(rateCheck, rateLimitMap') := checkRateLimit now rateLimitKey rateLimitMap in
    if negb (allowed rateCheck) then (rate_limited_response, rateLimitMap')
    else
      match try_block gateway req with
      | Ok response => (response, rateLimitMap')
      | Throw => (unexpected_error_response, rateLimitMap')
      end.

(** Requests and gateways to run the handler on. *)
Definition headers_of (l : list (string * string)) (name : string)
  : option (list N) :=
  match header_of name l with
  | Some v => Some (lit v)
  | None => None
  end.

Definition post (hs : list (string * string)) (body : list N) : Request :=
  {| method := lit "POST"; header := headers_of hs; body_text := body |}.

Definition sample_body : list N :=
  qlit "{'domain':'fitness','audience':'students','difficulty':'beginner','mode':'hackathon'}".

(** A gateway that answers every prompt with a chat completion whose
    message content is [content]. *)
Definition completion (content : list N) (_ : list N) : FetchResult :=
  FetchResponse 200
    (Some (qlit "{'choices':[{'message':{'content':" ++ content ++ lit "}}]}")).

Definition gateway_status (st : Z) (_ : list N) : FetchResult :=
  FetchResponse st (Some (lit "upstream error")).

(** Successive calls of the limiter: one caller key at the given times, and
    any callers at any times. *)
Fixpoint run_key (key : list N) (times : list Z)
    (m : gmap (list N) RateLimitRecord)
  : list bool * gmap (list N) RateLimitRecord :=
  match times with
  | [] => ([], m)
  | now :: rest =>
      let '(rc, m1) := checkRateLimit now key m in
      let '(answers, m2) := run_key key rest m1 in
      (allowed rc :: answers, m2)
  end.

Fixpoint run (calls : list (Z * list N)) (m : gmap (list N) RateLimitRecord)
  : gmap (list N) RateLimitRecord :=
  match calls with
  | [] => m
  | (now, key) :: rest => run rest (snd (checkRateLimit now key m))
  end.

(** The record a new window starts with, and a record counted once more. *)
Definition fresh_record (now : Z) : RateLimitRecord :=
  {| count := 1; resetTime := now + RATE_LIMIT_WINDOW_MS |}.

Definition next_record (r : RateLimitRecord) : RateLimitRecord :=
  {| count := count r + 1; resetTime := resetTime r |}.

(** Every stored record counts between 1 and the maximum. *)
Definition counts_bounded (m : gmap (list N) RateLimitRecord) : Prop :=
  forall k r, m !! k = Some r -> 1 <= count r <= RATE_LIMIT_MAX.

(** The responses the handler can give. *)
Inductive emitted : Response -> Prop :=
  | emitted_preflight : emitted preflight_response
  | emitted_rate_limited : emitted rate_limited_response
  | emitted_error st msg :
      In st [400; 402; 413; 429; 500] -> emitted (json_error st msg)
  | emitted_success parsedData : emitted (success_response parsedData).

(** The CORS headers of the source are the first headers of the response. *)
Definition has_cors (r : Response) : Prop :=
  (exists rest, headers r = corsHeaders ++ rest)
  /\ header_of "Access-Control-Allow-Origin" (headers r) = Some "*"%string
  /\ header_of "Access-Control-Allow-Headers" (headers r)
     = Some "authorization, x-client-info, apikey, content-type"%string.

(** What may follow a number literal without becoming part of it: the end
    of the text, or a character that is no digit ([nondigit]), nor a point
    ([nonfrac]), nor an exponent mark ([stops]). *)
Definition nondigit (t : list N) : bool :=
  match t with
  | [] => true
  | c :: _ => negb (is_digit c)
  end.

Definition nonfrac (t : list N) : bool :=
  match t with
  | [] => true
  | c :: _ => negb (is_digit c || (c =? 46)%N)
  end.

Definition stops (t : list N) : bool :=
  match t with
  | [] => true
  | c :: _ => negb (is_digit c || (c =? 46) || (c =? 101) || (c =? 69))%N
  end.

(** The text ends with a character that [trim] keeps. *)
Definition solid (pre : list N) : Prop :=
  exists c, last pre = Some c /\ is_js_space c = false.


(** The text [p] occurs in [s]. *)
Fixpoint occurs (p s : list N) : bool :=
  match s with
  | [] => false
  | _ :: t =>
      match strip_prefix p s with
      | Some _ => true
      | None => occurs p t
      end
  end.

(** The two ways the reply may be fenced. *)
Definition fenced_json (j : list N) : list N :=
  fence_json ++ 10%N :: j ++ 10%N :: fence.

Definition fenced_plain (j : list N) : list N :=
  fence ++ 10%N :: j ++ 10%N :: fence.

(** [body.name] on a parsed body that is not [null]. *)
Definition field_of (json_body : json) (name : string) : option json :=
  match json_body with
  | JObj fields => assoc (lit name) fields
  | _ => None
  end.

(** The code unit is neither [<] nor [>]. *)
Definition no_angle (c : N) : Prop := c <> 60%N /\ c <> 62%N.

(** The answers of the limiter to successive calls, each with its time and
    its key. *)
Fixpoint run_answers (calls : list (Z * list N))
    (m : gmap (list N) RateLimitRecord) : list bool :=
  match calls with
  | [] => []
  | (now, key) :: rest =>
      allowed (checkRateLimit now key m).1
      :: run_answers rest (checkRateLimit now key m).2
  end.

(** ** Successive requests *)

(** One call of the handler: the time, the gateway and the request. *)
Record Call := {
  call_now : Z;
  call_gateway : list N -> FetchResult;
  call_request : Request
}.

(** The handler on successive calls: the responses, and the map they leave. *)
Fixpoint serve_all (calls : list Call) (m : gmap (list N) RateLimitRecord)
  : list Response * gmap (list N) RateLimitRecord :=
  match calls with
  | [] => ([], m)
  | c :: rest =>
      let '(r, m1) := handler (call_now c) (call_gateway c) (call_request c) m in
      let '(rs, m2) := serve_all rest m1 in
      (r :: rs, m2)
  end.

(** The messages of the handler's error bodies. *)
Definition error_messages : list string :=
  ["Rate limit exceeded. Please try again later.";
   "Request too large";
   "Missing required fields: domain, audience, difficulty, mode";
   "Invalid difficulty level";
   "Invalid mode";
   "Rate limit exceeded. Please try again in a moment.";
   "AI credits exhausted. Please contact support.";
   "Service temporarily unavailable. Please try again.";
   "Failed to process response. Please try again.";
   "Failed to generate ideas. Please try again.";
   "An unexpected error occurred. Please try again."]%string.

(** What the outer [try] can answer: a success with a parsed value, or an
    error with one of the fixed messages. *)
Definition answer (r : Response) : Prop :=
  (exists parsedData, r = success_response parsedData)
  \/ (exists st msg,
        r = json_error st msg
        /\ In st [400; 402; 413; 429; 500] /\ In msg error_messages).

(** [s] and [w] are the same word up to the case of ASCII letters, [w]
    being in lower case. *)
Definition same_word_ignoring_case (s w : list N) : Prop :=
  Forall2 (fun c d => c = d \/ ((65 <= c)%N /\ (c <= 90)%N /\ d = (c + 32)%N)) s w.

(** ** The page that calls the function (handleGenerate) *)

(** What the page's [fetch] gives: a rejected promise, or a response with
    its status and what [response.json()] makes of its body ([None] when
    the body is not JSON). *)
Inductive ClientFetch :=
  | ClientReject
  | ClientResponse (st : Z) (data : option json).

(** The message of a thrown [Error]: a text the page chose, or the text the
    runtime gives its own errors (a failed [fetch], a body that is not
    JSON, a property read off [null]). *)
Inductive message :=
  | Text (s : list N)
  | RuntimeMessage.

Inductive toast :=
  | ToastSuccess (s : list N)
  | ToastError (m : message).

Record PageState := { ideas : list json; isLoading : bool }.

(** ToBoolean *)
Definition truthy (v : option json) : bool :=
  match v with
  | None | Some JNull | Some (JBool false) | Some (JStr []) => false
  | Some (JNum NaN) => false
  | Some (JNum (Dec m _)) => negb (m =? 0)
  | Some _ => true
  end.

(** The [try] block of [handleGenerate]: the ideas to show, or the message
    of the error thrown. *)
Definition generate_try (f : ClientFetch) : list json + message :=
  match f with
  | ClientReject => inr RuntimeMessage
  | ClientResponse st body =>
      if negb (response_ok st) then
        match body with
        | None => inr RuntimeMessage
        | Some errorData =>
            match get_prop (Some errorData) (lit "error") with
            | Throw => inr RuntimeMessage
            | Ok e =>
                if truthy e then
                  match String_of e with
                  | Ok s => inr (Text s)
                  | Throw => inr RuntimeMessage
                  end
                else inr (Text (lit "Failed to generate ideas"))
            end
        end
      else
        match body with
        | None => inr RuntimeMessage
        | Some data =>
            match get_prop (Some data) (lit "ideas") with
            | Throw => inr RuntimeMessage
            | Ok (Some (JArr items)) => inl items
            | Ok _ => inr (Text (lit "Invalid response format"))
            end
        end
  end.

(** [handleGenerate] from the answer of [fetch] on: the state of the page
    when it returns, and the toasts it showed.  It starts by setting
    [isLoading] and emptying [ideas], so the state before plays no part. *)
Definition handleGenerate (f : ClientFetch) : PageState * list toast :=
  match generate_try f with
  | inl items =>
      ({| ideas := items; isLoading := false |},
       [ToastSuccess (lit "3 amazing ideas generated!")])
  | inr m => ({| ideas := []; isLoading := false |}, [ToastError m])
  end.


(** * Properties *)

(** ** The fuel of the parser *)

Section Parser.

Implicit Types (p s r : list N) (f g : nat).

Lemma skip_ws_length s : (length (skip_ws s) <= length s)%nat.
Proof.
  induction s as [|c s IH]; simpl; [lia|].
  destruct (is_json_ws c); simpl; lia.
Qed.

Lemma skip_ws_cons s (c : N) r : skip_ws s = c :: r -> (length r < length s)%nat.
Proof.
  intros E. pose proof (skip_ws_length s) as H. rewrite E in H. simpl in H. lia.
Qed.

Lemma strip_prefix_Some p : forall s r, strip_prefix p s = Some r -> s = p ++ r.
Proof.
  induction p as [|a p IH]; intros s r; simpl.
  - now intros [= ->].
  - destruct s as [|c s]; [discriminate|].
    destruct (N.eqb_spec a c) as [->|]; [|discriminate].
    intros H. now rewrite (IH s r H).
Qed.

Lemma strip_prefix_length p : forall s r,
  strip_prefix p s = Some r -> length s = (length p + length r)%nat.
Proof.
  intros s r H. apply strip_prefix_Some in H. subst s. apply length_app.
Qed.

Lemma parse_string_body_length s : forall cs r,
  parse_string_body s = Some (cs, r) -> (length r < length s)%nat.
Proof.
  remember (length s) as n eqn:Hn. revert s Hn.
  induction n as [n IH] using lt_wf_ind. intros s -> cs r.
  assert (Hrec : forall t cs' rest, (length t < length s)%nat ->
                   parse_string_body t = Some (cs', rest) ->
                   (length rest < length t)%nat).
  { intros t cs' rest Ht. now apply (IH (length t) Ht t). }
  destruct s as [|c s]; [discriminate|]. cbn [parse_string_body].
  destruct (c =? 34)%N; [intros [= <- <-]; simpl; lia|].
  destruct (c =? 92)%N.
  - destruct s as [|e s1]; [discriminate|].
    destruct (e =? 117)%N.
    + destruct s1 as [|a [|b [|c' [|d r2]]]]; try discriminate.
      destruct (hex4 a b c' d); [|discriminate].
      destruct (parse_string_body r2) as [[cs' rest]|] eqn:E; [|discriminate].
      intros [= <- <-]. apply Hrec in E; simpl in *; lia.
    + destruct (simple_escape e); [|discriminate].
      destruct (parse_string_body s1) as [[cs' rest]|] eqn:E; [|discriminate].
      intros [= <- <-]. apply Hrec in E; simpl in *; lia.
  - destruct (c <? 32)%N; [discriminate|].
    destruct (parse_string_body s) as [[cs' rest]|] eqn:E; [|discriminate].
    intros [= <- <-]. apply Hrec in E; simpl in *; lia.
Qed.

Lemma span_digits_length s : forall ds r,
  span_digits s = (ds, r) -> length s = (length ds + length r)%nat.
Proof.
  induction s as [|c s IH]; intros ds r; simpl.
  - now intros [= <- <-].
  - destruct (is_digit c).
    + destruct (span_digits s) as [ds' r'] eqn:E. intros [= <- <-].
      simpl. now rewrite (IH ds' r' eq_refl).
    + now intros [= <- <-].
Qed.

Lemma opt_minus_length s (b : bool) r :
  opt_minus s = (b, r) -> (length r <= length s)%nat.
Proof.
  destruct s as [|c s]; simpl; [intros [= <- <-]; simpl; lia|].
  destruct (c =? 45)%N; intros [= <- <-]; simpl; lia.
Qed.

Lemma split_sign_length s (b : bool) r :
  split_sign s = (b, r) -> (length r <= length s)%nat.
Proof.
  destruct s as [|c s]; simpl; [intros [= <- <-]; simpl; lia|].
  destruct (c =? 45)%N; [|destruct (c =? 43)%N]; intros [= <- <-]; simpl; lia.
Qed.

Lemma parse_frac_length s (fs : list N) r :
  parse_frac s = Some (fs, r) -> (length r <= length s)%nat.
Proof.
  destruct s as [|c s]; simpl; [intros [= <- <-]; simpl; lia|].
  destruct (c =? 46)%N; [|intros [= <- <-]; simpl; lia].
  destruct (span_digits s) as [[|d ds] r'] eqn:E; [discriminate|].
  intros [= <- <-]. apply span_digits_length in E. simpl in *. lia.
Qed.

Lemma parse_exp_length s (ex : Z) r :
  parse_exp s = Some (ex, r) -> (length r <= length s)%nat.
Proof.
  destruct s as [|c s]; simpl; [intros [= <- <-]; simpl; lia|].
  destruct ((c =? 101)%N || (c =? 69)%N); [|intros [= <- <-]; simpl; lia].
  destruct (split_sign s) as [eneg r1] eqn:E1.
  destruct (span_digits r1) as [[|d ds] r2] eqn:E2; [discriminate|].
  intros [= <- <-]. apply split_sign_length in E1.
  apply span_digits_length in E2. simpl in *. lia.
Qed.

Lemma parse_number_length s (x : number) r :
  parse_number s = Some (x, r) -> (length r < length s)%nat.
Proof.
  unfold parse_number.
  destruct (opt_minus s) as [neg s1] eqn:E1.
  destruct (span_digits s1) as [[|d0 more] s2] eqn:E2; [discriminate|].
  destruct ((d0 =? 48)%N && negb (is_empty more)); [discriminate|].
  destruct (parse_frac s2) as [[fs s3]|] eqn:E3; [|discriminate].
  destruct (parse_exp s3) as [[ex s4]|] eqn:E4; [|discriminate].
  intros [= <- <-].
  apply opt_minus_length in E1. apply span_digits_length in E2.
  apply parse_frac_length in E3. apply parse_exp_length in E4.
  simpl in *. lia.
Qed.

Ltac crack H :=
  repeat match type of H with
         | context [match ?x with _ => _ end] =>
             destruct x eqn:?; try discriminate H
         end.

Ltac lengths :=
  repeat match goal with
         | E : skip_ws _ = _ :: _ |- _ => apply skip_ws_cons in E
         | E : parse_string_body _ = Some (_, _) |- _ =>
             apply parse_string_body_length in E
         | E : parse_number _ = Some (_, _) |- _ => apply parse_number_length in E
         | E : strip_prefix _ _ = Some _ |- _ => apply strip_prefix_length in E
         end.

(** A successful call consumes input. *)
Lemma parse_length f :
  (forall s v r, parse_value f s = Some (v, r) -> (length r < length s)%nat)
  /\ (forall s acc v r,
        parse_elements f s acc = Some (v, r) -> (length r < length s)%nat)
  /\ (forall s acc v r,
        parse_members f s acc = Some (v, r) -> (length r < length s)%nat).
Proof.
  induction f as [|f (IHV & IHE & IHM)]; [repeat split; discriminate|].
  split; [|split].
  - intros s v r H. cbn [parse_value] in H. crack H;
      try (injection H as <- <-); try (apply IHE in H); try (apply IHM in H);
      lengths; simpl in *; lia.
  - intros s acc v r H. cbn [parse_elements] in H. crack H;
      try (injection H as <- <-); try (apply IHE in H);
      match goal with E : parse_value f _ = Some _ |- _ => apply IHV in E end;
      lengths; simpl in *; lia.
  - intros s acc v r H. cbn [parse_members] in H. crack H;
      try (injection H as <- <-); try (apply IHM in H);
      match goal with E : parse_value f _ = Some _ |- _ => apply IHV in E end;
      lengths; simpl in *; lia.
Qed.

Ltac learn pf :=
  let T := type of pf in
  lazymatch goal with
  | _ : T |- _ => fail
  | _ => pose proof pf
  end.

Ltac gather f :=
  repeat match goal with
         | E : skip_ws ?s = ?c :: ?r |- _ => learn (skip_ws_cons s c r E)
         | E : parse_value f ?s = Some (?v, ?r) |- _ =>
             learn (proj1 (parse_length f) s v r E)
         | E : parse_elements f ?s ?a = Some (?v, ?r) |- _ =>
             learn (proj1 (proj2 (parse_length f)) s a v r E)
         | E : parse_members f ?s ?a = Some (?v, ?r) |- _ =>
             learn (proj2 (proj2 (parse_length f)) s a v r E)
         | E : parse_string_body ?s = Some (?cs, ?r) |- _ =>
             learn (parse_string_body_length s cs r E)
         end.

(** A call that succeeds with some fuel succeeds as well with any fuel that
    is at least the number of characters it consumes. *)
Lemma parse_fuel f :
  (forall s v r, parse_value f s = Some (v, r) ->
     forall g, (length s - length r <= g)%nat -> parse_value g s = Some (v, r))
  /\ (forall s acc v r, parse_elements f s acc = Some (v, r) ->
        forall g, (length s - length r <= g)%nat ->
          parse_elements g s acc = Some (v, r))
  /\ (forall s acc v r, parse_members f s acc = Some (v, r) ->
        forall g, (length s - length r <= g)%nat ->
          parse_members g s acc = Some (v, r)).
Proof.
  induction f as [|f (IHV & IHE & IHM)]; [repeat split; discriminate|].
  split; [|split].
  - intros s v r H g Hg.
    pose proof (proj1 (parse_length (S f)) s v r H) as Hlen.
    destruct g as [|g]; [lia|]. cbn [parse_value] in H |- *.
    crack H; gather f; try exact H.
    + apply (IHM _ _ _ _ H). lia.
    + apply (IHE _ _ _ _ H). lia.
  - intros s acc v r H g Hg.
    pose proof (proj1 (proj2 (parse_length (S f))) s acc v r H) as Hlen.
    destruct g as [|g]; [lia|]. cbn [parse_elements] in H |- *.
    crack H; gather f;
      match goal with
      | E : parse_value f ?s = Some (?v, ?r) |- _ =>
          rewrite (IHV s v r E g) by (try (injection H as <- <-); lia)
      end;
      repeat match goal with
             | E : ?x = _ |- context [match ?x with _ => _ end] => rewrite E
             | E : ?x = _ |- context [if ?x then _ else _] => rewrite E
             end; try exact H.
    + apply (IHE _ _ _ _ H). lia.
  - intros s acc v r H g Hg.
    pose proof (proj2 (proj2 (parse_length (S f))) s acc v r H) as Hlen.
    destruct g as [|g]; [lia|]. cbn [parse_members] in H |- *.
    crack H; gather f;
      match goal with
      | E : parse_value f ?s = Some (?v, ?r) |- _ =>
          rewrite (IHV s v r E g) by (try (injection H as <- <-); lia)
      end;
      repeat match goal with
             | E : ?x = _ |- context [match ?x with _ => _ end] => rewrite E
             | E : ?x = _ |- context [if ?x then _ else _] => rewrite E
             end; try exact H.
    + apply (IHM _ _ _ _ H). lia.
Qed.

(** The fuel [JSON_parse] gives is enough: what the parser finds with any
    fuel it finds with that one. *)
Lemma JSON_parse_fuel f s (v : json) r :
  parse_value f s = Some (v, r) -> parse_value (length s) s = Some (v, r).
Proof.
  intros H. apply (proj1 (parse_fuel f) s v r H). lia.
Qed.

(** A text that the parser accepts with some fuel, up to trailing white
    space, is accepted by [JSON_parse]. *)
Lemma JSON_parse_complete f s (v : json) r :
  parse_value f s = Some (v, r) -> skip_ws r = [] -> JSON_parse s = Some v.
Proof.
  intros H Hr. unfold JSON_parse. now rewrite (JSON_parse_fuel f s v r H), Hr.
Qed.

End Parser.

(** ** The sanitizer *)

Section Sanitizer.

Lemma trimStart_suffix (s : list N) : exists p, s = p ++ trimStart s.
Proof.
  induction s as [|c t [p IH]]; simpl.
  - now exists [].
  - destruct (is_js_space c).
    + exists (c :: p). simpl. now f_equal.
    + now exists [].
Qed.

Lemma trimEnd_prefix (s : list N) : exists q, s = trimEnd s ++ q.
Proof.
  induction s as [|c t [q IH]]; simpl.
  - now exists [].
  - destruct (trimEnd t) as [|d t'] eqn:E.
    + destruct (is_js_space c).
      * now exists (c :: t).
      * exists t. simpl. reflexivity.
    + exists q. simpl. now f_equal.
Qed.

Lemma trimStart_head (s : list N) (c : N) :
  head (trimStart s) = Some c -> is_js_space c = false.
Proof.
  induction s as [|d t IH]; simpl; [discriminate|].
  destruct (is_js_space d) eqn:E; simpl; [exact IH|].
  intros [= <-]. exact E.
Qed.

Lemma trimEnd_head (s : list N) (c : N) :
  head (trimEnd s) = Some c -> head s = Some c.
Proof.
  destruct s as [|d t]; simpl; [discriminate|].
  destruct (trimEnd t); [destruct (is_js_space d)|]; simpl; congruence.
Qed.

Lemma trimEnd_last (s : list N) (c : N) :
  last (trimEnd s) = Some c -> is_js_space c = false.
Proof.
  induction s as [|d t IH]; simpl; [discriminate|].
  destruct (trimEnd t) as [|e t'] eqn:E.
  - destruct (is_js_space d) eqn:D; simpl; [discriminate|].
    intros [= <-]. exact D.
  - intros H. apply IH. exact H.
Qed.

Lemma trim_head (s : list N) (c : N) :
  head (trim s) = Some c -> is_js_space c = false.
Proof.
  intros H. apply trimEnd_head in H. now apply trimStart_head in H.
Qed.

Lemma trim_last (s : list N) (c : N) :
  last (trim s) = Some c -> is_js_space c = false.
Proof. apply trimEnd_last. Qed.

Lemma strip_angles_clean (s : list N) :
  Forall (fun c => c <> 60%N /\ c <> 62%N) (strip_angles s).
Proof.
  unfold strip_angles. apply Forall_forall. intros c Hc.
  apply list_elem_of_In, filter_In in Hc. destruct Hc as [_ Hc].
  unfold is_angle in Hc.
  apply negb_true_iff, orb_false_iff in Hc. destruct Hc as [H1 H2].
  apply N.eqb_neq in H1, H2. now split.
Qed.

Lemma trim_Forall (P : N -> Prop) (s : list N) : Forall P s -> Forall P (trim s).
Proof.
  intros H. unfold trim.
  destruct (trimStart_suffix s) as [p Hp].
  destruct (trimEnd_prefix (trimStart s)) as [q Hq].
  rewrite Hp, Forall_app in H. destruct H as [_ H].
  rewrite Hq, Forall_app in H. now destruct H.
Qed.

Lemma take_head (n : nat) (s : list N) (c : N) :
  head (take n s) = Some c -> head s = Some c.
Proof. destruct n, s; simpl; congruence. Qed.

End Sanitizer.

(** C5, as the code has it.  For every value [v], [sanitizeString v] has no
    [<] and no [>], has at most 500 code units, does not start with white
    space, and is empty when [v] is not a string.  For a string it is the
    first 500 code units of the stripped and trimmed text, so it does not
    end with white space either when that text has at most 500 code units;
    a longer text is cut after trimming and the cut may end in white
    space. *)
Theorem sanitizeString_spec (v : option json) :
  let r := sanitizeString v in
  Forall (fun c => c <> 60%N /\ c <> 62%N) r
  /\ (length r <= 500)%nat
  /\ (forall c, head r = Some c -> is_js_space c = false)
  /\ (forall s, v = Some (JStr s) ->
        r = take 500 (trim (strip_angles s))
        /\ r `prefix_of` trim (strip_angles s)
        /\ ((length (trim (strip_angles s)) <= 500)%nat ->
            r = trim (strip_angles s)
            /\ forall c, last r = Some c -> is_js_space c = false))
  /\ (is_string v = false -> r = []).
Proof.
  assert (Hstr : forall s, sanitizeString (Some (JStr s))
                           = take 500 (trim (strip_angles s))) by reflexivity.
  cbv zeta. repeat split.
  - destruct v as [[| | | s | |]|]; try (simpl; constructor).
    rewrite Hstr. apply Forall_take, trim_Forall, strip_angles_clean.
  - destruct v as [[| | | s | |]|]; try (simpl; lia).
    rewrite Hstr, length_take. lia.
  - intros c. destruct v as [[| | | s | |]|]; try (simpl; discriminate).
    rewrite Hstr. intros H. apply take_head in H. now apply trim_head in H.
  - subst v. apply Hstr.
  - subst v. rewrite Hstr. apply prefix_take.
  - subst v. rewrite Hstr. now apply take_ge.
  - subst v. rewrite Hstr, take_ge by assumption. apply trim_last.
  - destruct v as [[| | | s | |]|]; simpl; intros; congruence.
Qed.

(** C5 fails as stated: 499 letters, a space and one more letter are cut
    after the space, so the result ends in white space. *)
Lemma sanitizeString_not_trimmed :
  let s := replicate 499 97%N ++ lit " b" in
  last (sanitizeString (Some (JStr s))) = Some 32%N
  /\ is_js_space 32 = true
  /\ length (sanitizeString (Some (JStr s))) = 500%nat.
Proof. vm_compute. repeat split. Qed.

(** ** The number validator *)

Section Numbers.

Lemma num_leb_refl (x : number) : isNaN x = false -> num_leb x x = true.
Proof.
  destruct x; simpl; try congruence. intros _.
  unfold dec_compare. now rewrite Z.compare_refl.
Qed.

Lemma num_leb_total (x y : number) :
  isNaN x = false -> isNaN y = false ->
  num_leb x y = false -> num_leb y x = true.
Proof.
  destruct x as [| | |m1 e1], y as [| | |m2 e2]; simpl; try congruence.
  intros _ _. unfold dec_compare. rewrite (Z.min_comm e2 e1).
  rewrite (Z.compare_antisym (m1 * 10 ^ (e1 - Z.min e1 e2))).
  destruct (m1 * 10 ^ (e1 - Z.min e1 e2) ?= m2 * 10 ^ (e2 - Z.min e1 e2));
    simpl; congruence.
Qed.

Lemma parseInt10_integer (s : list N) :
  parseInt10 s = NaN \/ exists z, parseInt10 s = of_Z z.
Proof.
  unfold parseInt10. destruct (split_sign (trimStart s)) as [neg u].
  destruct (span_digits u).1; [now left | right; eauto].
Qed.

(** The clamp lies between its bounds. *)
Lemma clamp_between (num min max : number) :
  isNaN num = false -> isNaN min = false -> isNaN max = false ->
  num_leb min max = true ->
  Math_min (Math_max num min) max
  = (if num_leb num min then min else if num_leb num max then num else max)
  /\ num_leb min (Math_min (Math_max num min) max) = true
  /\ num_leb (Math_min (Math_max num min) max) max = true.
Proof.
  intros Hn Hmin Hmax Hle.
  assert (Hmm : Math_max num min = if num_leb num min then min else num).
  { destruct num, min; simpl in *; congruence. }
  assert (Hany : forall y, isNaN y = false ->
                   Math_min y max = if num_leb y max then y else max).
  { intros y Hy. destruct y, max; simpl in *; congruence. }
  rewrite Hmm.
  destruct (num_leb num min) eqn:E1.
  - rewrite (Hany min Hmin), Hle. repeat split; auto using num_leb_refl.
  - rewrite (Hany num Hn).
    destruct (num_leb num max) eqn:E2; repeat split;
      auto using num_leb_refl, num_leb_total.
Qed.

(** Number literals on the edges of the doubles: beyond the largest one,
    under the least one, between two of them, and past 2^53. *)
Lemma parse_number_rounds :
  JSON_parse (lit "1e400") = Some (JNum PosInf)
  /\ JSON_parse (lit "-1e400") = Some (JNum NegInf)
  /\ JSON_parse (lit "1e-400") = Some (JNum (of_Z 0))
  /\ JSON_parse (lit "4.9999999999999999999") = Some (JNum (of_Z 5))
  /\ JSON_parse (lit "9007199254740993") = Some (JNum (of_Z 9007199254740992))
  /\ JSON_parse (lit "1.7976931348623157e308")
     = Some (JNum (of_Z ((2 ^ 53 - 1) * 2 ^ 971)))
  /\ JSON_parse (lit "5e-324") = Some (JNum (Dec (5 ^ 1074) (-1074)))
  /\ JSON_parse (lit "0.1")
     = Some (JNum (Dec 1000000000000000055511151231257827021181583404541015625 (-55))).
Proof. vm_compute. repeat split. Qed.

(** What [String] makes of the values of some JSON texts. *)
Lemma String_examples :
  let string_of_text s :=
    match JSON_parse (qlit s) with
    | Some v => ToString v
    | None => Throw
    end in
  string_of_text "0.1"%string = Ok (lit "0.1")
  /\ string_of_text "1e400"%string = Ok (lit "Infinity")
  /\ string_of_text "4.9999999999999999999"%string = Ok (lit "5")
  /\ string_of_text "1e21"%string = Ok (lit "1e+21")
  /\ string_of_text "123456789012345678901"%string = Ok (lit "123456789012345680000")
  /\ string_of_text "-0.0000001"%string = Ok (lit "-1e-7")
  /\ string_of_text "0.000001"%string = Ok (lit "0.000001")
  /\ string_of_text "[null,[1,2.50],'a',{},true]"%string = Ok (lit ",1,2.5,a,[object Object],true")
  /\ string_of_text "{'valueOf':1}"%string = Ok (lit "[object Object]")
  /\ string_of_text "{'toString':null}"%string = Throw
  /\ string_of_text "[1,[{'toString':'x'}]]"%string = Throw.
Proof. vm_compute. repeat split. Qed.

End Numbers.



(** ** The rate limiter *)

Section RateLimiter.

Implicit Types (m : gmap (list N) RateLimitRecord) (key : list N).

Ltac limits :=
  unfold fresh_record, next_record, RATE_LIMIT_WINDOW_MS, RATE_LIMIT_MAX in *;
  simpl in *; lia.

Lemma checkRateLimit_fresh now key m :
  m !! key = None \/ (exists r, m !! key = Some r /\ resetTime r < now) ->
  checkRateLimit now key m
  = ({| allowed := true; remaining := 19 |}, <[key := fresh_record now]> m).
Proof.
  unfold checkRateLimit. intros [-> | (r & -> & Hr)]; [reflexivity|].
  destruct (Z.gtb_spec now (resetTime r)); [reflexivity | lia].
Qed.

Lemma checkRateLimit_denied now key m r :
  m !! key = Some r -> now <= resetTime r -> 20 <= count r ->
  checkRateLimit now key m = ({| allowed := false; remaining := 0 |}, m).
Proof.
  unfold checkRateLimit. intros -> Hnow Hc.
  destruct (Z.gtb_spec now (resetTime r)); [lia|].
  unfold RATE_LIMIT_MAX, Z.geb.
  destruct (Z.compare_spec (count r) 20); (reflexivity || lia).
Qed.

Lemma checkRateLimit_counted now key m r :
  m !! key = Some r -> now <= resetTime r -> count r < 20 ->
  checkRateLimit now key m
  = ({| allowed := true; remaining := 20 - (count r + 1) |},
     <[key := next_record r]> m).
Proof.
  unfold checkRateLimit. intros -> Hnow Hc.
  destruct (Z.gtb_spec now (resetTime r)); [lia|].
  unfold RATE_LIMIT_MAX, Z.geb.
  destruct (Z.compare_spec (count r) 20); (reflexivity || lia).
Qed.

(** The three cases cover every call. *)
Lemma checkRateLimit_cases now key m :
  let out := checkRateLimit now key m in
  (allowed out.1 = true /\ out.2 = <[key := fresh_record now]> m)
  \/ (exists r, m !! key = Some r /\ now <= resetTime r /\ 20 <= count r
        /\ allowed out.1 = false /\ out.2 = m)
  \/ (exists r, m !! key = Some r /\ now <= resetTime r /\ count r < 20
        /\ allowed out.1 = true /\ out.2 = <[key := next_record r]> m).
Proof.
  cbv zeta. destruct (m !! key) as [r|] eqn:E.
  - destruct (Z.lt_ge_cases (resetTime r) now) as [Hlt | Hge].
    + left. rewrite checkRateLimit_fresh by eauto. auto.
    + destruct (Z.lt_ge_cases (count r) 20) as [Hc | Hc].
      * right; right. exists r.
        rewrite (checkRateLimit_counted now key m r) by assumption. auto.
      * right; left. exists r.
        rewrite (checkRateLimit_denied now key m r) by assumption. auto.
  - left. rewrite checkRateLimit_fresh by eauto. auto.
Qed.

Lemma checkRateLimit_other now key m k :
  k <> key -> (checkRateLimit now key m).2 !! k = m !! k.
Proof.
  intros Hk.
  destruct (checkRateLimit_cases now key m)
    as [[_ ->] | [(r & _ & _ & _ & _ & ->) | (r & _ & _ & _ & _ & ->)]];
    try reflexivity; now rewrite lookup_insert_ne.
Qed.

(** Inside a window, requests are allowed while the count stays under the
    maximum. *)
Lemma run_key_allowed key (times : list Z) : forall m r,
  m !! key = Some r ->
  count r + Z.of_nat (length times) <= 20 ->
  Forall (fun t => t <= resetTime r) times ->
  exists m',
    run_key key times m = (replicate (length times) true, m')
    /\ m' !! key
       = Some {| count := count r + Z.of_nat (length times);
                 resetTime := resetTime r |}.
Proof.
  induction times as [|t ts IH]; intros m r Hm Hc Hts.
  - exists m. simpl. split; [reflexivity|].
    rewrite Hm. destruct r; simpl. do 2 f_equal. lia.
  - apply Forall_cons in Hts. destruct Hts as [Ht Hts].
    simpl length in *. simpl run_key.
    rewrite (checkRateLimit_counted t key m r) by (assumption || lia).
    destruct (IH (<[key := next_record r]> m) (next_record r))
      as (m' & Hrun & Hm'); simpl; try assumption.
    + apply lookup_insert_eq.
    + lia.
    + exists m'. rewrite Hrun. split; [reflexivity|].
      rewrite Hm'. simpl. do 2 f_equal. lia.
Qed.

(** From a key that is new or whose window is over, twenty requests in
    the window that opens are allowed and the next one is denied. *)
Lemma twenty_then_denied key m (t0 t21 : Z) (times : list Z) :
  m !! key = None \/ (exists r, m !! key = Some r /\ resetTime r < t0) ->
  length times = 19%nat ->
  Forall (fun t => t <= t0 + 3600000) times ->
  t21 <= t0 + 3600000 ->
  (run_key key (t0 :: times ++ [t21]) m).1 = replicate 20 true ++ [false].
Proof.
  intros Hnew Hlen Hts Ht21.
  change (t0 :: times ++ [t21]) with ([t0] ++ times ++ [t21]).
  simpl run_key. rewrite checkRateLimit_fresh by assumption.
  assert (Happ : forall ts1 ts2 m1,
             run_key key (ts1 ++ ts2) m1
             = let '(a1, m2) := run_key key ts1 m1 in
               let '(a2, m3) := run_key key ts2 m2 in (a1 ++ a2, m3)).
  { induction ts1 as [|t ts1 IH1]; intros ts2 m1; simpl.
    - now destruct (run_key key ts2 m1).
    - destruct (checkRateLimit t key m1) as [rc m2]. rewrite IH1.
      destruct (run_key key ts1 m2) as [a1 m3].
      now destruct (run_key key ts2 m3). }
  rewrite Happ.
  destruct (run_key_allowed key times (<[key := fresh_record t0]> m)
              (fresh_record t0)) as (m' & Hrun & Hm').
  - apply lookup_insert_eq.
  - limits.
  - exact Hts.
  - rewrite Hrun. simpl run_key.
    rewrite (checkRateLimit_denied t21 key m' _ Hm') by limits.
    rewrite Hlen. reflexivity.
Qed.

Lemma checkRateLimit_bounded now key m :
  counts_bounded m -> counts_bounded (checkRateLimit now key m).2.
Proof.
  intros Hm k r'.
  destruct (checkRateLimit_cases now key m)
    as [[_ ->] | [(r & _ & _ & _ & _ & ->) | (r & Hr & _ & Hc & _ & ->)]].
  - destruct (decide (k = key)) as [->|Hk].
    + rewrite lookup_insert_eq. intros [= <-]. limits.
    + rewrite lookup_insert_ne by congruence. apply Hm.
  - apply Hm.
  - destruct (decide (k = key)) as [->|Hk].
    + rewrite lookup_insert_eq. intros [= <-].
      specialize (Hm key r Hr). limits.
    + rewrite lookup_insert_ne by congruence. apply Hm.
Qed.

Lemma run_bounded (calls : list (Z * list N)) : forall m,
  counts_bounded m -> counts_bounded (run calls m).
Proof.
  induction calls as [|[now key] rest IH]; intros m Hm; simpl; [exact Hm|].
  apply IH, checkRateLimit_bounded, Hm.
Qed.

Lemma handler_not_options now gateway req m :
  str_eqb (method req) (lit "OPTIONS") = false ->
  handler now gateway req m
  = let out := checkRateLimit now (getRateLimitKey req) m in
    (if allowed out.1 then
       match try_block gateway req with
       | Ok response => response
       | Throw => unexpected_error_response
       end
     else rate_limited_response, out.2).
Proof.
  intros H. unfold handler. rewrite H. cbv zeta.
  destruct (checkRateLimit now (getRateLimitKey req) m) as [rc m'].
  simpl. destruct (allowed rc); simpl; [|reflexivity].
  now destruct (try_block gateway req).
Qed.

End RateLimiter.

(** C3.  [checkRateLimit] is the fixed-window counter: a key that is new,
    or whose [resetTime] is behind [now], gets the record (count 1,
    resetTime now + one hour) and is allowed; otherwise a count of 20 or
    more is denied and nothing is stored, and a smaller count is
    incremented and allowed; the handler answers a denial with 429.  So a
    key gets twenty requests in a window and the twenty-first is denied,
    and no stored count ever leaves 1..20. *)
Theorem checkRateLimit_fixed_window :
  (forall now key (m : gmap (list N) RateLimitRecord),
      (m !! key = None \/ (exists r, m !! key = Some r /\ resetTime r < now) ->
       checkRateLimit now key m
       = ({| allowed := true; remaining := 19 |},
          <[key := {| count := 1; resetTime := now + RATE_LIMIT_WINDOW_MS |}]> m))
      /\ (forall r, m !! key = Some r -> now <= resetTime r ->
            (RATE_LIMIT_MAX <= count r ->
             checkRateLimit now key m = ({| allowed := false; remaining := 0 |}, m))
            /\ (count r < RATE_LIMIT_MAX ->
                checkRateLimit now key m
                = ({| allowed := true; remaining := RATE_LIMIT_MAX - (count r + 1) |},
                   <[key := {| count := count r + 1; resetTime := resetTime r |}]> m)))
      /\ (forall k, k <> key -> (checkRateLimit now key m).2 !! k = m !! k))
  /\ (forall now gateway req (m : gmap (list N) RateLimitRecord),
        str_eqb (method req) (lit "OPTIONS") = false ->
        allowed (checkRateLimit now (getRateLimitKey req) m).1 = false ->
        status (handler now gateway req m).1 = 429)
  /\ (forall key (m : gmap (list N) RateLimitRecord) t0 t21 times,
        m !! key = None \/ (exists r, m !! key = Some r /\ resetTime r < t0) ->
        length times = 19%nat ->
        Forall (fun t => t <= t0 + RATE_LIMIT_WINDOW_MS) times ->
        t21 <= t0 + RATE_LIMIT_WINDOW_MS ->
        (run_key key (t0 :: times ++ [t21]) m).1 = replicate 20 true ++ [false])
  /\ (forall calls k r, run calls ∅ !! k = Some r -> 1 <= count r <= RATE_LIMIT_MAX).
Proof.
  split; [|split; [|split]].
  - intros now key m. split; [|split].
    + apply checkRateLimit_fresh.
    + intros r Hr Hnow. split; intros Hc.
      * now apply checkRateLimit_denied with r.
      * now apply checkRateLimit_counted.
    + intros k. apply checkRateLimit_other.
  - intros now gateway req m Hm Hd.
    rewrite handler_not_options by assumption. cbv zeta. simpl.
    now rewrite Hd.
  - apply twenty_then_denied.
  - intros calls k r. apply (run_bounded calls ∅). intros k' r'.
    now rewrite lookup_empty.
Qed.

(** ** The handler's responses *)

Section Responses.

Implicit Types (m : gmap (list N) RateLimitRecord) (req : Request).

Ltac in_statuses := simpl; tauto.

Lemma reply_response_emitted (content : list N) : emitted (reply_response content).
Proof.
  unfold reply_response, recover.
  destruct (direct_parse content); [apply emitted_success|].
  destruct (brace_match content) as [js|].
  - destruct (JSON_parse js); [apply emitted_success|].
    apply emitted_error. in_statuses.
  - apply emitted_error. in_statuses.
Qed.

Lemma handle_gateway_emitted (f : FetchResult) (r : Response) :
  handle_gateway f = Ok r -> emitted r.
Proof.
  unfold handle_gateway. destruct f as [|st text]; [discriminate|].
  destruct (response_ok st); cbn [negb].
  - destruct text as [t|]; [|discriminate].
    destruct (JSON_parse t) as [data|]; [|discriminate].
    unfold mbind, result_bind.
    destruct (get_prop (Some data) (lit "choices")) as [choices|];
      cbv beta iota; [|discriminate].
    destruct (get_index0 choices) as [first|]; cbv beta iota; [|discriminate].
    destruct (get_prop first (lit "message")) as [message|];
      cbv beta iota; [|discriminate].
    destruct (get_prop message (lit "content")) as [[[| | | s | |]|]|];
      cbv beta iota; try discriminate.
    intros [= <-]. apply reply_response_emitted.
  - destruct text; [|discriminate]. intros [= <-].
    destruct (st =? 429); [|destruct (st =? 402)]; apply emitted_error; in_statuses.
Qed.

Lemma prepare_early req (r : Response) :
  prepare req = Ok (inl r) ->
  (r = json_error 413 "Request too large" /\ too_large req = true)
  \/ (exists msg, r = json_error 400 msg /\ too_large req = false).
Proof.
  unfold prepare. destruct (too_large req).
  - intros [= <-]. now left.
  - destruct (JSON_parse (body_text req)) as [b|]; [|discriminate].
    unfold mbind, result_bind.
    repeat match goal with
           | |- context [match get_prop ?v ?n with _ => _ end] =>
               destruct (get_prop v n); cbv beta iota; [|discriminate]
           end.
    repeat match goal with
           | |- context [match validateNumber ?v ?lo ?hi ?d with _ => _ end] =>
               destruct (validateNumber v lo hi d); cbv beta iota; [|discriminate]
           end.
    repeat match goal with
           | |- context [if ?c then _ else _] => destruct c
           end; intros [= <-]; right; eauto.
Qed.

Lemma try_block_emitted gateway req (r : Response) :
  try_block gateway req = Ok r -> emitted r.
Proof.
  unfold try_block, mbind, result_bind.
  destruct (prepare req) as [[early|prompt]|] eqn:E; [| |discriminate].
  - intros [= <-].
    destruct (prepare_early req early E) as [[-> _] | (msg & -> & _)];
      apply emitted_error; in_statuses.
  - apply handle_gateway_emitted.
Qed.

Lemma handler_emitted now gateway req m : emitted (handler now gateway req m).1.
Proof.
  destruct (str_eqb (method req) (lit "OPTIONS")) eqn:E.
  - unfold handler. rewrite E. apply emitted_preflight.
  - rewrite handler_not_options by assumption. cbv zeta. simpl.
    destruct (allowed _); [|apply emitted_rate_limited].
    destruct (try_block gateway req) eqn:T.
    + eapply try_block_emitted, T.
    + apply emitted_error. in_statuses.
Qed.

Lemma emitted_has_cors (r : Response) : emitted r -> has_cors r.
Proof.
  intros []; (split; [|split]); try reflexivity; simpl; eauto.
Qed.

End Responses.

(** C9.  Every response of the handler, the preflight answer, the success
    and each error alike, starts its headers with the CORS headers of the
    source, so it carries [Access-Control-Allow-Origin: *]; its status is
    one of 200, 400, 402, 413, 429 and 500. *)
Theorem handler_cors (now : Z) (gateway : list N -> FetchResult)
    (req : Request) (m : gmap (list N) RateLimitRecord) :
  has_cors (handler now gateway req m).1
  /\ header_of "Access-Control-Allow-Origin" (headers (handler now gateway req m).1)
     = Some "*"%string
  /\ In (status (handler now gateway req m).1) [200; 400; 402; 413; 429; 500].
Proof.
  pose proof (handler_emitted now gateway req m) as H.
  split; [|split].
  - now apply emitted_has_cors.
  - now apply emitted_has_cors.
  - destruct H; simpl in *; tauto.
Qed.

(** C10.  An OPTIONS request is answered before the limiter runs: the
    response has no body and the CORS headers, and the rate-limit map is
    the one the request found. *)
Theorem handler_options (now : Z) (gateway : list N -> FetchResult)
    (req : Request) (m : gmap (list N) RateLimitRecord) :
  method req = lit "OPTIONS" ->
  handler now gateway req m = (preflight_response, m)
  /\ body (handler now gateway req m).1 = None
  /\ (handler now gateway req m).2 = m.
Proof.
  intros H. unfold handler, str_eqb. rewrite H.
  rewrite bool_decide_eq_true_2 by reflexivity. auto.
Qed.

(** [handler_options] on a preflight from a caller who is at the limit. *)
Lemma handler_options_witness :
  let req := {| method := lit "OPTIONS"; header := headers_of []; body_text := [] |} in
  let m : gmap (list N) RateLimitRecord :=
    <[lit "unknown" := {| count := 20; resetTime := 5000 |}]> ∅ in
  handler 1000 (gateway_status 200) req m = (preflight_response, m)
  /\ body (handler 1000 (gateway_status 200) req m).1 = None
  /\ (handler 1000 (gateway_status 200) req m).2 = m.
Proof.
  cbv zeta. apply (handler_options 1000 (gateway_status 200)). reflexivity.
Defined.

(** ** Order of the checks *)

Section Checks.

Implicit Types (m : gmap (list N) RateLimitRecord) (req : Request).

Lemma declared_too_large req (cl : list N) (n : Z) :
  header req "content-length" = Some cl ->
  parseInt10 cl = of_Z n -> MAX_REQUEST_SIZE < n ->
  too_large req = true.
Proof.
  intros Hh Hp Hn. unfold too_large. rewrite Hh.
  destruct cl as [|c r]; [discriminate|]. rewrite Hp.
  unfold of_Z, num_gtb, num_leb, dec_compare, MAX_REQUEST_SIZE in *.
  change (10 ^ (0 - Z.min 0 0)) with 1. rewrite !Z.mul_1_r.
  rewrite (proj2 (Z.compare_gt_iff n 10000)) by lia. reflexivity.
Qed.

Lemma try_block_too_large gateway req :
  too_large req = true ->
  try_block gateway req = Ok (json_error 413 "Request too large").
Proof. intros H. unfold try_block, prepare. now rewrite H. Qed.

Lemma reply_response_status (content : list N) :
  status (reply_response content) = 200 \/ status (reply_response content) = 500.
Proof.
  unfold reply_response, recover.
  destruct (direct_parse content); [now left|].
  destruct (brace_match content) as [js|]; [|now right].
  destruct (JSON_parse js); [now left | now right].
Qed.

(** A 429 out of the [try] block is the gateway's 429 passed on. *)
Lemma try_block_429 gateway req (r : Response) :
  try_block gateway req = Ok r -> status r = 429 ->
  r = json_error 429 "Rate limit exceeded. Please try again in a moment."
  /\ exists prompt text,
       prepare req = Ok (inr prompt)
       /\ gateway prompt = FetchResponse 429 (Some text).
Proof.
  unfold try_block, mbind, result_bind.
  destruct (prepare req) as [[early|prompt]|] eqn:E; [| |discriminate].
  - intros [= <-].
    destruct (prepare_early req early E) as [[-> _] | (msg & -> & _)]; discriminate.
  - unfold handle_gateway. destruct (gateway prompt) as [|st text] eqn:G; [discriminate|].
    destruct (response_ok st); cbn [negb].
    + destruct text as [t|]; [|discriminate].
      destruct (JSON_parse t) as [data|]; [|discriminate].
      unfold mbind, result_bind.
      destruct (get_prop (Some data) (lit "choices")) as [choices|];
        cbv beta iota; [|discriminate].
      destruct (get_index0 choices) as [first|]; cbv beta iota; [|discriminate].
      destruct (get_prop first (lit "message")) as [message|];
        cbv beta iota; [|discriminate].
      destruct (get_prop message (lit "content")) as [[[| | | s | |]|]|];
        cbv beta iota; try discriminate.
      intros [= <-] Hs. destruct (reply_response_status s); congruence.
    + destruct text as [t|]; [|discriminate]. intros [= <-].
      destruct (Z.eqb_spec st 429) as [->|_].
      * intros _. split; [reflexivity|]. eauto.
      * destruct (st =? 402); discriminate.
Qed.

End Checks.

(** C2, as the code has it.  The limiter runs before the size check.  A
    request that is not OPTIONS and declares a content-length above 10,000
    first goes through [checkRateLimit], which updates the caller's record;
    it is answered 413 if the limiter allows it, before its body is read or
    the gateway called, and 429 if not. *)
Theorem oversized_request (now : Z) (gateway : list N -> FetchResult)
    (req : Request) (m : gmap (list N) RateLimitRecord) (cl : list N) (n : Z) :
  str_eqb (method req) (lit "OPTIONS") = false ->
  header req "content-length" = Some cl ->
  parseInt10 cl = of_Z n -> MAX_REQUEST_SIZE < n ->
  let out := checkRateLimit now (getRateLimitKey req) m in
  handler now gateway req m
  = (if allowed out.1 then json_error 413 "Request too large"
     else rate_limited_response, out.2).
Proof.
  intros Hm Hh Hp Hn. rewrite handler_not_options by assumption. cbv zeta.
  rewrite try_block_too_large by (now apply declared_too_large with cl n).
  reflexivity.
Qed.

(** [oversized_request] on a first request that declares 10,001 bytes. *)
Lemma oversized_request_witness :
  handler 0 (gateway_status 200)
    (post [("content-length", "10001")]%string sample_body) ∅
  = (json_error 413 "Request too large",
     <[lit "unknown" := {| count := 1; resetTime := 3600000 |}]> ∅).
Proof.
  rewrite (oversized_request 0 (gateway_status 200)
             (post [("content-length", "10001")]%string sample_body) ∅
             (lit "10001") 10001) by reflexivity.
  reflexivity.
Defined.

(** C2 fails as stated: an oversized request from a new caller is answered
    413 and still takes a slot (the caller's record goes from nothing to
    count 1); from a caller at the limit it is answered 429, not 413. *)
Lemma oversized_request_consumes_slot :
  let req := post [("content-length", "10001")]%string sample_body in
  let full : gmap (list N) RateLimitRecord :=
    <[lit "unknown" := {| count := 20; resetTime := 5000 |}]> ∅ in
  too_large req = true
  /\ status (handler 0 (gateway_status 200) req ∅).1 = 413
  /\ (∅ : gmap (list N) RateLimitRecord) !! lit "unknown" = None
  /\ (handler 0 (gateway_status 200) req ∅).2 !! lit "unknown"
     = Some {| count := 1; resetTime := 3600000 |}
  /\ status (handler 1000 (gateway_status 200) req full).1 = 429.
Proof. vm_compute. repeat split. Qed.

(** C4, as the code has it.  The 429 of the local limiter carries
    [Retry-After: 3600].  The only other 429 is the one passed on from a
    gateway 429; it carries the CORS headers and the content type, and no
    [Retry-After]. *)
Theorem retry_after_429 (now : Z) (gateway : list N -> FetchResult)
    (req : Request) (m : gmap (list N) RateLimitRecord) :
  str_eqb (method req) (lit "OPTIONS") = false ->
  let rc := (checkRateLimit now (getRateLimitKey req) m).1 in
  let r := (handler now gateway req m).1 in
  (allowed rc = false ->
   r = rate_limited_response
   /\ status r = 429
   /\ header_of "Retry-After" (headers r) = Some "3600"%string)
  /\ (allowed rc = true -> status r = 429 ->
      r = json_error 429 "Rate limit exceeded. Please try again in a moment."
      /\ header_of "Retry-After" (headers r) = None
      /\ exists prompt text,
           prepare req = Ok (inr prompt)
           /\ gateway prompt = FetchResponse 429 (Some text)).
Proof.
  intros Hm. cbv zeta. rewrite handler_not_options by assumption.
  cbv zeta. cbn [fst]. split; intros Ha.
  - rewrite Ha. auto.
  - rewrite Ha. destruct (try_block gateway req) as [r|] eqn:T; [|discriminate].
    intros Hs. destruct (try_block_429 gateway req r T Hs) as [-> Hg].
    split; [reflexivity|]. split; [reflexivity | exact Hg].
Qed.

(** [retry_after_429] on a request from a caller who is at the limit. *)
Lemma retry_after_429_witness :
  let full : gmap (list N) RateLimitRecord :=
    <[lit "unknown" := {| count := 20; resetTime := 5000 |}]> ∅ in
  header_of "Retry-After"
    (headers (handler 1000 (gateway_status 429) (post [] sample_body) full).1)
  = Some "3600"%string.
Proof.
  cbv zeta.
  refine (proj2 (proj2 (proj1
    (retry_after_429 1000 (gateway_status 429) (post [] sample_body)
       (<[lit "unknown" := {| count := 20; resetTime := 5000 |}]> ∅) _) _)));
    reflexivity.
Defined.

(** C4 fails as stated: when the gateway answers 429 the handler answers
    429 with no [Retry-After] header. *)
Lemma gateway_429_no_retry_after :
  let r := (handler 0 (gateway_status 429) (post [] sample_body) ∅).1 in
  status r = 429
  /\ header_of "Retry-After" (headers r) = None
  /\ headers r = jsonHeaders.
Proof. vm_compute. repeat split. Qed.

(** ** Failures of the gateway *)

Section Gateway.

Implicit Types (m : gmap (list N) RateLimitRecord) (req : Request).

(** A request that passes the limiter and the validation is answered by
    what [handle_gateway] makes of the gateway's answer. *)
Lemma handler_reaches_gateway now gateway req m (prompt : list N) :
  str_eqb (method req) (lit "OPTIONS") = false ->
  allowed (checkRateLimit now (getRateLimitKey req) m).1 = true ->
  prepare req = Ok (inr prompt) ->
  (handler now gateway req m).1
  = match handle_gateway (gateway prompt) with
    | Ok response => response
    | Throw => unexpected_error_response
    end.
Proof.
  intros Hm Ha Hp. rewrite handler_not_options by assumption.
  cbv zeta. cbn [fst]. rewrite Ha.
  unfold try_block, mbind, result_bind. now rewrite Hp.
Qed.

End Gateway.

(** C7.  For a request that reaches the gateway: a response whose status
    is not a success (outside 200..299) is answered 429 with the
    rate-limit message when the status is 429, 402 with the
    credits-exhausted message when it is 402, and 500 with the
    service-unavailable message otherwise.  A rejected [fetch], a body that
    cannot be read and a success body that is not JSON are exceptions; they
    are caught and answered 500 with the one generic message. *)
Theorem gateway_failure_mapping (now : Z) (gateway : list N -> FetchResult)
    (req : Request) (m : gmap (list N) RateLimitRecord) (prompt : list N) :
  str_eqb (method req) (lit "OPTIONS") = false ->
  allowed (checkRateLimit now (getRateLimitKey req) m).1 = true ->
  prepare req = Ok (inr prompt) ->
  let r := (handler now gateway req m).1 in
  (forall st text,
      gateway prompt = FetchResponse st (Some text) -> response_ok st = false ->
      r = if st =? 429 then
            json_error 429 "Rate limit exceeded. Please try again in a moment."
          else if st =? 402 then
            json_error 402 "AI credits exhausted. Please contact support."
          else
            json_error 500 "Service temporarily unavailable. Please try again.")
  /\ (gateway prompt = FetchReject ->
      r = json_error 500 "An unexpected error occurred. Please try again.")
  /\ (forall st, gateway prompt = FetchResponse st None ->
      r = json_error 500 "An unexpected error occurred. Please try again.")
  /\ (forall st text,
        gateway prompt = FetchResponse st (Some text) -> response_ok st = true ->
        JSON_parse text = None ->
        r = json_error 500 "An unexpected error occurred. Please try again.").
Proof.
  intros Hm Ha Hp. cbv zeta.
  rewrite (handler_reaches_gateway now gateway req m prompt Hm Ha Hp).
  split; [|split; [|split]].
  - intros st text -> Hok. unfold handle_gateway. rewrite Hok. reflexivity.
  - intros ->. reflexivity.
  - intros st ->. unfold handle_gateway. now destruct (response_ok st).
  - intros st text -> Hok Hj. unfold handle_gateway. rewrite Hok. cbn [negb].
    now rewrite Hj.
Qed.

(** [gateway_failure_mapping] on a gateway that answers 503. *)
Lemma gateway_failure_mapping_witness :
  (handler 0 (gateway_status 503) (post [] sample_body) ∅).1
  = json_error 500 "Service temporarily unavailable. Please try again.".
Proof.
  refine (proj1 (gateway_failure_mapping 0 (gateway_status 503)
                   (post [] sample_body) ∅
                   (userPrompt (lit "fitness") (lit "students") (lit "beginner")
                      (lit "hackathon") [] [] (of_Z 7) (of_Z 3)) _ _ _)
            503 (lit "upstream error") _ _);
    reflexivity.
Defined.

(** ** Recovery of the reply: the fallback *)

(** When the direct parse and the fallback both fail the answer is 500. *)
Lemma recover_both_fail (content : list N) :
  direct_parse content = Throw ->
  match brace_match content with
  | Some js => JSON_parse js = None
  | None => True
  end ->
  status (reply_response content) = 500.
Proof.
  intros Hd Hb. unfold reply_response, recover. rewrite Hd.
  destruct (brace_match content) as [js|]; [now rewrite Hb | reflexivity].
Qed.

(** What the direct parse returns has a list under [ideas]. *)
Lemma direct_parse_has_ideas (content : list N) (parsedData : json) :
  direct_parse content = Ok parsedData ->
  exists fields items,
    parsedData = JObj fields /\ assoc (lit "ideas") fields = Some (JArr items).
Proof.
  unfold direct_parse, has_ideas_array, mbind, result_bind.
  destruct (JSON_parse (cleanContent content)) as [pd|]; [|discriminate].
  destruct pd as [| | | | |fields]; try discriminate; unfold get_prop.
  - destruct (assoc (lit "ideas") fields) as [[| | | |items|]|] eqn:E;
      try discriminate.
    intros [= <-]. eauto.
Qed.

(** C1 on the code: the check of the [ideas] list guards the direct parse
    only.  When it throws, the [catch] parses the braces of the reply again
    and returns the result unchecked.  The reply the system prompt asks the
    model for when it cannot answer has no [ideas]; the direct parse
    rejects it, the fallback parses the same text, and the handler answers
    200 with it. *)
Theorem fallback_skips_ideas_check :
  let reply := qlit "{'error': 'could not produce json'}" in
  let parsed := JObj [(lit "error", JStr (lit "could not produce json"))] in
  JSON_parse (cleanContent reply) = Some parsed
  /\ has_ideas_array parsed = Ok false
  /\ direct_parse reply = Throw
  /\ recover reply = Parsed parsed
  /\ (handler 0 (completion (qlit "'{\'error\': \'could not produce json\'}'"))
        (post [] sample_body) ∅).1
     = {| status := 200; headers := jsonHeaders; body := Some parsed |}.
Proof. vm_compute. repeat split. Qed.

(** ** Recovery of the reply: fences *)

Section Fences.

Implicit Types (p s t : list N).

Lemma remove_all_skip p (k : nat) : forall s,
  remove_all p k s = remove_all p 0 (drop k s).
Proof.
  induction k as [|k IH]; intros s; [reflexivity|].
  destruct s as [|c s]; [reflexivity|]. simpl. apply IH.
Qed.

(** The scan, one match at a time. *)
Lemma remove_all_unfold (a : N) p s :
  remove_all (a :: p) 0 s
  = match strip_prefix (a :: p) s with
    | Some (c :: r) =>
        if (c =? 10)%N then remove_all (a :: p) 0 r
        else remove_all (a :: p) 0 (c :: r)
    | Some [] => []
    | None =>
        match s with
        | [] => []
        | c :: t => c :: remove_all (a :: p) 0 t
        end
    end.
Proof.
  destruct s as [|c t]; [reflexivity|].
  cbn [remove_all]. unfold match_len.
  destruct (strip_prefix (a :: p) (c :: t)) as [rest|] eqn:E; [|reflexivity].
  apply strip_prefix_Some in E. injection E as -> ->.
  destruct rest as [|d r]; cbn [length].
  - rewrite remove_all_skip, drop_app_length. reflexivity.
  - destruct (d =? 10)%N.
    + rewrite remove_all_skip.
      replace (S (length p)) with (length p + 1)%nat by lia.
      rewrite <- drop_drop, drop_app_length. reflexivity.
    + rewrite remove_all_skip, drop_app_length. reflexivity.
Qed.

Lemma strip_prefix_before_newline p :
  Forall (fun c => c <> 10%N) p ->
  forall s t,
    strip_prefix p (s ++ 10%N :: t)
    = match strip_prefix p s with
      | Some r => Some (r ++ 10%N :: t)
      | None => None
      end.
Proof.
  induction 1 as [|a p Ha _ IH]; intros s t; [reflexivity|].
  destruct s as [|c s]; simpl.
  - destruct (N.eqb_spec a 10); [contradiction | reflexivity].
  - destruct (a =? c)%N; [apply IH | reflexivity].
Qed.

(** A newline splits the scan: what stands before it and what stands
    behind it are scanned apart, and the newline goes with a match that
    ends just before it. *)
Lemma remove_all_newline (a : N) p t :
  Forall (fun c => c <> 10%N) (a :: p) ->
  forall (n : nat) s, (length s <= n)%nat ->
    remove_all (a :: p) 0 (s ++ 10%N :: t)
    = remove_all (a :: p) 0 s ++ 10%N :: remove_all (a :: p) 0 t
    \/ remove_all (a :: p) 0 (s ++ 10%N :: t)
       = remove_all (a :: p) 0 s ++ remove_all (a :: p) 0 t.
Proof.
  intros Hp. induction n as [|n IH]; intros s Hn.
  - destruct s; [|simpl in Hn; lia]. left.
    rewrite (remove_all_unfold a p ([] ++ 10%N :: t)).
    rewrite (strip_prefix_before_newline _ Hp [] t). reflexivity.
  - rewrite (remove_all_unfold a p (s ++ 10%N :: t)),
            (remove_all_unfold a p s),
            (strip_prefix_before_newline _ Hp s t).
    destruct (strip_prefix (a :: p) s) as [[|c r]|] eqn:E.
    + right. reflexivity.
    + apply strip_prefix_Some in E.
      assert (Hr : (length (c :: r) <= n)%nat).
      { rewrite E in Hn. rewrite length_app in Hn. simpl in *. lia. }
      cbn [app]. destruct (c =? 10)%N.
      * apply IH. simpl in Hr. lia.
      * apply (IH (c :: r) Hr).
    + destruct s as [|c s'].
      * left. reflexivity.
      * simpl in Hn. cbn [app].
        destruct (IH s') as [-> | ->]; [lia | now left | now right].
Qed.

(** A closing fence right behind the text leaves no trace. *)
Lemma remove_all_fence_end : forall (n : nat) s, (length s <= n)%nat ->
  remove_all fence 0 (s ++ fence) = remove_all fence 0 s.
Proof.
  induction n as [|n IH]; intros s Hn.
  - destruct s; [reflexivity | simpl in Hn; lia].
  - destruct s as [|c1 [|c2 [|c3 s']]].
    + reflexivity.
    + unfold fence, remove_all, match_len. cbn [app strip_prefix].
      destruct (N.eqb_spec 96 c1) as [<-|]; reflexivity.
    + unfold fence, remove_all, match_len. cbn [app strip_prefix].
      destruct (N.eqb_spec 96 c1) as [<-|];
        destruct (N.eqb_spec 96 c2) as [<-|]; reflexivity.
    + unfold fence.
      rewrite (remove_all_unfold 96 [96; 96]%N
                 ((c1 :: c2 :: c3 :: s') ++ [96; 96; 96]%N)),
              (remove_all_unfold 96 [96; 96]%N (c1 :: c2 :: c3 :: s')).
      simpl in Hn. cbn [app strip_prefix].
      destruct (96 =? c1)%N;
        [destruct (96 =? c2)%N; [destruct (96 =? c3)%N|]|].
      * destruct s' as [|d r]; [reflexivity|]. cbn [app].
        destruct (d =? 10)%N.
        -- apply IH. simpl in *. lia.
        -- apply (IH (d :: r)). simpl in *. lia.
      * f_equal. apply (IH (c2 :: c3 :: s')). simpl. lia.
      * f_equal. apply (IH (c2 :: c3 :: s')). simpl. lia.
      * f_equal. apply (IH (c2 :: c3 :: s')). simpl. lia.
Qed.

Lemma trimEnd_space_end s (w : N) :
  is_js_space w = true -> trimEnd (s ++ [w]) = trimEnd s.
Proof.
  intros Hw. induction s as [|c s IH]; simpl.
  - now rewrite Hw.
  - now rewrite IH.
Qed.

Lemma trim_space_end s (w : N) :
  is_js_space w = true -> trim (s ++ [w]) = trim s.
Proof.
  intros Hw. unfold trim.
  assert (H : trimStart (s ++ [w]) = trimStart s ++ [w]
              \/ (trimStart (s ++ [w]) = [] /\ trimStart s = [])).
  { induction s as [|c s IH]; simpl.
    - rewrite Hw. now right.
    - destruct (is_js_space c); [exact IH | now left]. }
  destruct H as [-> | [-> ->]]; [now apply trimEnd_space_end | reflexivity].
Qed.

Lemma remove_all_absent p s :
  p <> [] -> occurs p s = false -> remove_all p 0 s = s.
Proof.
  destruct p as [|a p]; [congruence|]. intros _.
  induction s as [|c s IH]; [reflexivity|].
  rewrite remove_all_unfold. cbn [occurs].
  destruct (strip_prefix (a :: p) (c :: s)); [discriminate|].
  intros H. now rewrite (IH H).
Qed.

Lemma strip_prefix_app p q : forall s,
  strip_prefix (p ++ q) s
  = match strip_prefix p s with
    | Some r => strip_prefix q r
    | None => None
    end.
Proof.
  induction p as [|a p IH]; intros s; [reflexivity|].
  destruct s as [|c s]; simpl; [reflexivity|].
  destruct (a =? c)%N; [apply IH | reflexivity].
Qed.

Lemma occurs_fence_json s : occurs fence s = false -> occurs fence_json s = false.
Proof.
  induction s as [|c s IH]; [reflexivity|]. cbn [occurs].
  unfold fence_json at 1. rewrite strip_prefix_app.
  destruct (strip_prefix fence (c :: s)); [discriminate | exact IH].
Qed.

(** A text without three backticks in a row is only trimmed. *)
Lemma cleanContent_no_fence (j : list N) :
  occurs fence j = false -> cleanContent j = trim j.
Proof.
  intros H. unfold cleanContent.
  rewrite (remove_all_absent fence_json j) by (discriminate || now apply occurs_fence_json).
  now rewrite (remove_all_absent fence j) by (discriminate || assumption).
Qed.

(** What stands between the fences cleans to what it cleans to alone. *)
Lemma clean_before_closing_fence (j : list N) :
  trim (remove_all fence 0 (remove_all fence_json 0 (j ++ 10%N :: fence)))
  = cleanContent j.
Proof.
  unfold cleanContent.
  assert (Hj : Forall (fun c => c <> 10%N) fence_json)
    by (repeat constructor; discriminate).
  assert (Hf : Forall (fun c => c <> 10%N) fence)
    by (repeat constructor; discriminate).
  destruct (remove_all_newline 96 (tail fence_json) fence Hj (length j) j
              (Nat.le_refl _)) as [E | E];
    change (96%N :: tail fence_json) with fence_json in E; rewrite E;
    change (remove_all fence_json 0 fence) with fence;
    set (x := remove_all fence_json 0 j).
  - destruct (remove_all_newline 96 [96; 96]%N fence Hf (length x) x
                (Nat.le_refl _)) as [F | F];
      change (96%N :: [96; 96]%N) with fence in F; rewrite F;
      change (remove_all fence 0 fence) with (@nil N).
    + now apply trim_space_end.
    + now rewrite app_nil_r.
  - now rewrite (remove_all_fence_end (length x) x).
Qed.

Lemma cleanContent_fenced_json (j : list N) :
  cleanContent (fenced_json j) = cleanContent j.
Proof.
  rewrite <- (clean_before_closing_fence j). reflexivity.
Qed.

Lemma cleanContent_fenced_plain (j : list N) :
  cleanContent (fenced_plain j) = cleanContent j.
Proof.
  rewrite <- (clean_before_closing_fence j). reflexivity.
Qed.

Lemma from_first_app (c : N) s t :
  from_first c (s ++ t)
  = match from_first c s with
    | [] => from_first c t
    | u => u ++ t
    end.
Proof.
  induction s as [|x s IH]; simpl; [now destruct (from_first c t)|].
  destruct (x =? c)%N; [reflexivity | exact IH].
Qed.

Lemma up_to_last_app (c : N) s t :
  up_to_last c t = None -> up_to_last c (s ++ t) = up_to_last c s.
Proof.
  intros Ht. induction s as [|x s IH]; simpl; [exact Ht | now rewrite IH].
Qed.

Lemma brace_match_before_fence (j : list N) :
  brace_match (j ++ 10%N :: fence) = brace_match j.
Proof.
  unfold brace_match. rewrite from_first_app.
  destruct (from_first 123 j) as [|x u]; [reflexivity|].
  now apply up_to_last_app.
Qed.

Lemma brace_match_fenced (j : list N) :
  brace_match (fenced_json j) = brace_match j
  /\ brace_match (fenced_plain j) = brace_match j.
Proof.
  split; rewrite <- (brace_match_before_fence j); reflexivity.
Qed.

End Fences.

(** ** The parser and the text around a value *)

Section Frame.

Implicit Types (s r t pre w : list N) (f : nat).

Ltac decide_cmp :=
  repeat match goal with
         | |- context [(?a <=? ?b)%N] =>
             first [ rewrite (proj2 (N.leb_le a b)) by lia
                   | rewrite (proj2 (N.leb_gt a b)) by lia ]
         | |- context [(?a =? ?b)%N] =>
             first [ rewrite (proj2 (N.eqb_eq a b)) by lia
                   | rewrite (proj2 (N.eqb_neq a b)) by lia ]
         end.

Lemma is_digit_range (c : N) : is_digit c = true -> (48 <= c <= 57)%N.
Proof.
  unfold is_digit. intros H. apply andb_true_iff in H.
  destruct H as [H1 H2]. apply N.leb_le in H1, H2. lia.
Qed.

Lemma digit_not_space (c : N) :
  is_digit c = true -> is_js_space c = false /\ (c =? 45)%N = false.
Proof.
  intros H. apply is_digit_range in H. unfold is_js_space.
  decide_cmp. now split.
Qed.

Lemma json_ws_cases (c : N) :
  is_json_ws c = true -> (c = 32 \/ c = 9 \/ c = 10 \/ c = 13)%N.
Proof.
  unfold is_json_ws. rewrite !orb_true_iff, !N.eqb_eq. tauto.
Qed.

Lemma json_ws_space (c : N) : is_json_ws c = true -> is_js_space c = true.
Proof.
  intros H. destruct (json_ws_cases c H) as [-> | [-> | [-> | ->]]]; reflexivity.
Qed.

Lemma json_ws_stops (c : N) t : is_json_ws c = true -> stops (c :: t) = true.
Proof.
  intros H. destruct (json_ws_cases c H) as [-> | [-> | [-> | ->]]]; reflexivity.
Qed.

Lemma stops_nonfrac t : stops t = true -> nonfrac t = true.
Proof.
  destruct t as [|c t]; [reflexivity|]. unfold stops, nonfrac.
  destruct (is_digit c); [discriminate|]. simpl.
  destruct (c =? 46)%N; [discriminate | reflexivity].
Qed.

Lemma nonfrac_nondigit t : nonfrac t = true -> nondigit t = true.
Proof.
  destruct t as [|c t]; [reflexivity|]. unfold nonfrac, nondigit.
  destruct (is_digit c); [discriminate | reflexivity].
Qed.

Lemma skip_ws_frame s (c : N) r :
  skip_ws s = c :: r ->
  exists w, s = w ++ c :: r
            /\ Forall (fun a => is_json_ws a = true) w
            /\ is_json_ws c = false.
Proof.
  induction s as [|a s IH]; simpl; [discriminate|].
  destruct (is_json_ws a) eqn:E.
  - intros H. destruct (IH H) as (w & -> & Hw & Hc).
    exists (a :: w). repeat split; [now constructor | exact Hc].
  - intros [= -> ->]. exists []. repeat split; [constructor | exact E].
Qed.

Lemma skip_ws_app w s :
  Forall (fun a => is_json_ws a = true) w -> skip_ws (w ++ s) = skip_ws s.
Proof. induction 1 as [|a w Ha _ IH]; simpl; [reflexivity | now rewrite Ha]. Qed.

Lemma skip_ws_at w (c : N) s :
  Forall (fun a => is_json_ws a = true) w -> is_json_ws c = false ->
  skip_ws (w ++ c :: s) = c :: s.
Proof. intros Hw Hc. rewrite (skip_ws_app w _ Hw). simpl. now rewrite Hc. Qed.

Lemma ws_then_stops w (c : N) s :
  Forall (fun a => is_json_ws a = true) w -> stops (c :: s) = true ->
  stops (w ++ c :: s) = true.
Proof.
  intros Hw Hc. destruct Hw as [|a w Ha _]; [exact Hc|].
  now apply json_ws_stops.
Qed.

Lemma solid_end pre (c : N) : is_js_space c = false -> solid (pre ++ [c]).
Proof. intros H. exists c. now rewrite last_snoc. Qed.

Lemma solid_app pre1 pre2 : solid pre2 -> solid (pre1 ++ pre2).
Proof.
  intros (c & Hl & Hc). exists c. split; [|exact Hc].
  rewrite last_app, Hl. reflexivity.
Qed.

Lemma solid_cons (a : N) pre : solid pre -> solid (a :: pre).
Proof. apply (solid_app [a]). Qed.

Lemma parse_string_body_frame s : forall cs r,
  parse_string_body s = Some (cs, r) ->
  exists pre, s = pre ++ r /\ solid pre
              /\ forall t, parse_string_body (pre ++ t) = Some (cs, t).
Proof.
  remember (length s) as n eqn:Hn. revert s Hn.
  induction n as [n IH] using lt_wf_ind. intros s -> cs r.
  assert (Hrec : forall u cs' rest, (length u < length s)%nat ->
                   parse_string_body u = Some (cs', rest) ->
                   exists pre, u = pre ++ rest /\ solid pre
                     /\ forall t, parse_string_body (pre ++ t) = Some (cs', t)).
  { intros u cs' rest Hu. now apply (IH (length u) Hu u). }
  destruct s as [|c s]; [discriminate|]. cbn [parse_string_body].
  destruct (c =? 34)%N eqn:Q.
  - intros [= <- <-]. exists [c]. apply N.eqb_eq in Q. subst c.
    split; [reflexivity|]. split; [apply (solid_end [] 34); reflexivity|].
    intros t. reflexivity.
  - destruct (c =? 92)%N eqn:B.
    + destruct s as [|e s1]; [discriminate|].
      destruct (e =? 117)%N eqn:U.
      * destruct s1 as [|a [|b [|c' [|d r2]]]]; try discriminate.
        destruct (hex4 a b c' d) eqn:Hx; [|discriminate].
        destruct (parse_string_body r2) as [[cs' rest]|] eqn:E; [|discriminate].
        intros [= <- <-].
        destruct (Hrec r2 cs' rest ltac:(simpl; lia) E) as (pre & -> & Hs & Ht).
        exists (c :: e :: a :: b :: c' :: d :: pre).
        split; [reflexivity|]. split; [now repeat apply solid_cons|].
        intros t. cbn [app parse_string_body]. now rewrite Q, B, U, Hx, Ht.
      * destruct (simple_escape e) eqn:Hx; [|discriminate].
        destruct (parse_string_body s1) as [[cs' rest]|] eqn:E; [|discriminate].
        intros [= <- <-].
        destruct (Hrec s1 cs' rest ltac:(simpl; lia) E) as (pre & -> & Hs & Ht).
        exists (c :: e :: pre).
        split; [reflexivity|]. split; [now repeat apply solid_cons|].
        intros t. cbn [app parse_string_body]. now rewrite Q, B, U, Hx, Ht.
    + destruct (c <? 32)%N eqn:L; [discriminate|].
      destruct (parse_string_body s) as [[cs' rest]|] eqn:E; [|discriminate].
      intros [= <- <-].
      destruct (Hrec s cs' rest ltac:(simpl; lia) E) as (pre & -> & Hs & Ht).
      exists (c :: pre).
      split; [reflexivity|]. split; [now apply solid_cons|].
      intros t. cbn [app parse_string_body]. now rewrite Q, B, L, Ht.
Qed.

Lemma span_digits_frame s : forall ds r,
  span_digits s = (ds, r) ->
  s = ds ++ r /\ Forall (fun d => is_digit d = true) ds.
Proof.
  induction s as [|c s IH]; intros ds r; simpl.
  - intros [= <- <-]. split; [reflexivity | constructor].
  - destruct (is_digit c) eqn:D.
    + destruct (span_digits s) as [ds' r'] eqn:E. intros [= <- <-].
      destruct (IH ds' r' eq_refl) as [-> H]. split; [reflexivity | now constructor].
    + intros [= <- <-]. split; [reflexivity | constructor].
Qed.

Lemma span_digits_app (ds : list N) t :
  Forall (fun d => is_digit d = true) ds -> nondigit t = true ->
  span_digits (ds ++ t) = (ds, t).
Proof.
  intros H Ht. induction H as [|d ds Hd _ IH]; simpl.
  - destruct t as [|c t]; [reflexivity|]. simpl in Ht.
    apply negb_true_iff in Ht. simpl. now rewrite Ht.
  - now rewrite Hd, IH.
Qed.


Lemma digits_last (ds : list N) (d : N) :
  Forall (fun d => is_digit d = true) ds -> last ds = Some d -> is_js_space d = false.
Proof.
  intros H Hl. apply last_Some in Hl. destruct Hl as [l' ->].
  apply Forall_app in H. destruct H as [_ H].
  apply Forall_cons in H. destruct H as [H _]. now apply digit_not_space in H.
Qed.

Lemma digits_solid (d : N) (ds : list N) :
  Forall (fun d => is_digit d = true) (d :: ds) -> solid (d :: ds).
Proof.
  intros H. destruct (last (d :: ds)) as [c|] eqn:E.
  - exists c. split; [exact E|]. now apply (digits_last (d :: ds)).
  - apply last_None in E. discriminate E.
Qed.

(** The fraction of a number literal. *)
Lemma parse_frac_frame s (fs : list N) r :
  parse_frac s = Some (fs, r) ->
  exists pre, s = pre ++ r
    /\ (pre = [] \/ solid pre)
    /\ forall t, nonfrac t = true ->
          parse_frac (pre ++ t) = Some (fs, t) /\ nondigit (pre ++ t) = true.
Proof.
  destruct s as [|c s]; cbn [parse_frac].
  - intros [= <- <-]. exists []. repeat split; [now left | | now apply nonfrac_nondigit].
    destruct t as [|c t]; [reflexivity|]. cbn [app parse_frac].
    unfold nonfrac in H. apply negb_true_iff, orb_false_iff in H. now rewrite (proj2 H).
  - destruct (c =? 46)%N eqn:P.
    + destruct (span_digits s) as [[|d ds] r'] eqn:E; [discriminate|].
      intros [= <- <-]. apply span_digits_frame in E. destruct E as [-> Hd].
      exists (c :: d :: ds).
      split; [reflexivity|]. split; [right; now apply solid_cons, digits_solid|].
      intros t Ht. split.
      * cbn [app parse_frac]. rewrite P.
        change (d :: ds ++ t) with ((d :: ds) ++ t).
        now rewrite (span_digits_app (d :: ds) t Hd (nonfrac_nondigit t Ht)).
      * cbn [app nondigit]. apply N.eqb_eq in P. now subst c.
    + intros [= <- <-]. exists []. repeat split; [now left | | now apply nonfrac_nondigit].
      destruct t as [|c' t]; [reflexivity|]. cbn [app parse_frac].
      unfold nonfrac in H. apply negb_true_iff, orb_false_iff in H. now rewrite (proj2 H).
Qed.

Lemma digit_not_sign (d : N) :
  is_digit d = true -> (d =? 45)%N = false /\ (d =? 43)%N = false.
Proof.
  intros H. apply is_digit_range in H. decide_cmp. now split.
Qed.

(** The exponent of a number literal. *)
Lemma parse_exp_frame s (ex : Z) r :
  parse_exp s = Some (ex, r) ->
  exists pre, s = pre ++ r
    /\ (pre = [] \/ solid pre)
    /\ forall t, stops t = true ->
          parse_exp (pre ++ t) = Some (ex, t) /\ nonfrac (pre ++ t) = true.
Proof.
  assert (Hnone : forall t, stops t = true ->
            parse_exp ([] ++ t) = Some (0, t) /\ nonfrac ([] ++ t) = true).
  { intros t Ht. split; [|now apply stops_nonfrac].
    destruct t as [|c t]; [reflexivity|]. cbn [app parse_exp].
    unfold stops in Ht. apply negb_true_iff in Ht.
    destruct (is_digit c); [discriminate|]. destruct (c =? 46)%N; [discriminate|].
    simpl in Ht. now rewrite Ht. }
  destruct s as [|c s]; cbn [parse_exp].
  - intros [= <- <-]. exists []. repeat split; [now left | now apply Hnone ..].
  - destruct ((c =? 101)%N || (c =? 69)%N) eqn:P.
    + destruct (split_sign s) as [eneg r1] eqn:E1.
      destruct (span_digits r1) as [[|d ds] r2] eqn:E2; [discriminate|].
      intros [= <- <-]. apply span_digits_frame in E2. destruct E2 as [-> Hd].
      assert (Hd0 : is_digit d = true) by now apply Forall_cons in Hd.
      destruct (digit_not_sign d Hd0) as [Hm Hp].
      assert (Hc : nonfrac (c :: []) = true).
      { unfold nonfrac, is_digit. apply orb_true_iff in P.
        destruct P as [P|P]; apply N.eqb_eq in P; subst c; reflexivity. }
      assert (Hsplit : exists sg, s = sg ++ (d :: ds) ++ r2
                /\ forall t, split_sign (sg ++ (d :: ds) ++ t) = (eneg, (d :: ds) ++ t)).
      { destruct s as [|a s]; cbn [split_sign] in E1; [discriminate E1|].
        destruct (a =? 45)%N eqn:A1.
        - injection E1 as <- ->. exists [a]. split; [reflexivity|].
          intros t. cbn [app split_sign]. now rewrite A1.
        - destruct (a =? 43)%N eqn:A2.
          + injection E1 as <- ->. exists [a]. split; [reflexivity|].
            intros t. cbn [app split_sign]. now rewrite A1, A2.
          + injection E1 as <- -> ->. exists []. split; [reflexivity|].
            intros t. cbn [app split_sign]. now rewrite Hm, Hp. }
      destruct Hsplit as (sg & -> & Hsg).
      exists (c :: sg ++ d :: ds).
      split; [cbn [app]; now rewrite <- app_assoc|].
      split; [right; apply solid_cons, solid_app; now apply digits_solid|].
      intros t Ht. split.
      * replace ((c :: sg ++ d :: ds) ++ t) with (c :: sg ++ (d :: ds) ++ t)
          by (cbn [app]; now rewrite <- app_assoc).
        cbn [parse_exp]. rewrite P, Hsg.
        now rewrite (span_digits_app (d :: ds) t Hd
                       (nonfrac_nondigit t (stops_nonfrac t Ht))).
      * cbn [app]. exact Hc.
    + intros [= <- <-]. exists []. repeat split; [now left | now apply Hnone ..].
Qed.

(** A number literal reads the same before any text that [stops] it. *)
Lemma parse_number_frame s (x : number) r :
  parse_number s = Some (x, r) ->
  exists pre, s = pre ++ r /\ solid pre
    /\ forall t, stops t = true -> parse_number (pre ++ t) = Some (x, t).
Proof.
  unfold parse_number.
  destruct (opt_minus s) as [neg s1] eqn:E1.
  destruct (span_digits s1) as [[|d0 more] s2] eqn:E2; [discriminate|].
  destruct ((d0 =? 48)%N && negb (is_empty more)) eqn:Z0; [discriminate|].
  destruct (parse_frac s2) as [[fs s3]|] eqn:E3; [|discriminate].
  destruct (parse_exp s3) as [[ex s4]|] eqn:E4; [|discriminate].
  intros [= <- <-].
  apply span_digits_frame in E2. destruct E2 as [-> Hd].
  assert (Hd0 : is_digit d0 = true) by now apply Forall_cons in Hd.
  destruct (parse_frac_frame _ _ _ E3) as (pf & -> & Hpf & Ff).
  destruct (parse_exp_frame _ _ _ E4) as (pe & -> & Hpe & Fe).
  assert (Hsg : exists sg, s = sg ++ (d0 :: more) ++ pf ++ pe ++ s4
            /\ forall u, opt_minus (sg ++ d0 :: u) = (neg, d0 :: u)).
  { destruct s as [|a s]; cbn [opt_minus] in E1; [discriminate E1|].
    destruct (a =? 45)%N eqn:A.
    - injection E1 as <- ->. exists [a]. split; [reflexivity|].
      intros u. cbn [app opt_minus]. now rewrite A.
    - injection E1 as <- -> ->. exists []. split; [reflexivity|].
      intros u. cbn [app opt_minus].
      now rewrite (proj2 (digit_not_space d0 Hd0)). }
  destruct Hsg as (sg & -> & Hsg).
  exists (sg ++ (d0 :: more) ++ pf ++ pe).
  split; [now rewrite <- !app_assoc|]. split.
  - apply solid_app.
    destruct Hpe as [-> | Hpe]; [|now apply solid_app, solid_app].
    rewrite app_nil_r.
    destruct Hpf as [-> | Hpf]; [|now apply solid_app].
    rewrite app_nil_r. now apply digits_solid.
  - intros t Ht. destruct (Fe t Ht) as [Fe1 Fe2].
    destruct (Ff (pe ++ t) Fe2) as [Ff1 Ff2].
    replace ((sg ++ (d0 :: more) ++ pf ++ pe) ++ t)
      with (sg ++ d0 :: (more ++ pf ++ pe ++ t))
      by (repeat (rewrite <- ?app_assoc; cbn [app]); reflexivity).
    rewrite Hsg.
    change (d0 :: more ++ pf ++ pe ++ t) with ((d0 :: more) ++ pf ++ pe ++ t).
    rewrite (span_digits_app (d0 :: more) _ Hd Ff2), Z0, Ff1, Fe1. reflexivity.
Qed.

Lemma strip_prefix_frame (p : list N) : forall s r,
  strip_prefix p s = Some r -> s = p ++ r /\ forall t, strip_prefix p (p ++ t) = Some t.
Proof.
  induction p as [|a p IH]; intros s r; cbn [strip_prefix].
  - intros [= ->]. now split.
  - destruct s as [|c s]; [discriminate|].
    destruct (N.eqb_spec a c) as [->|]; [|discriminate].
    intros H. destruct (IH s r H) as [-> Ht]. split; [reflexivity|].
    intros t. cbn [app strip_prefix]. now rewrite N.eqb_refl.
Qed.

(** The literals [true], [false] and [null], as [parse_value] tries them. *)
Lemma literal_frame s (v : json) r :
  match strip_prefix (lit "true") s with
  | Some rest => Some (JBool true, rest)
  | None =>
      match strip_prefix (lit "false") s with
      | Some rest => Some (JBool false, rest)
      | None =>
          match strip_prefix (lit "null") s with
          | Some rest => Some (JNull, rest)
          | None => None
          end
      end
  end = Some (v, r) ->
  exists pre, s = pre ++ r /\ solid pre
    /\ forall t,
         match strip_prefix (lit "true") (pre ++ t) with
         | Some rest => Some (JBool true, rest)
         | None =>
             match strip_prefix (lit "false") (pre ++ t) with
             | Some rest => Some (JBool false, rest)
             | None =>
                 match strip_prefix (lit "null") (pre ++ t) with
                 | Some rest => Some (JNull, rest)
                 | None => None
                 end
             end
         end = Some (v, t).
Proof.
  destruct (strip_prefix (lit "true") s) as [rest|] eqn:E1.
  { intros [= <- <-]. apply strip_prefix_frame in E1. destruct E1 as [-> _].
    exists (lit "true"). split; [reflexivity|].
    split; [exists 101%N; now split|]. intros t. reflexivity. }
  destruct (strip_prefix (lit "false") s) as [rest|] eqn:E2.
  { intros [= <- <-]. apply strip_prefix_frame in E2. destruct E2 as [-> _].
    exists (lit "false"). split; [reflexivity|].
    split; [exists 101%N; now split|]. intros t. reflexivity. }
  destruct (strip_prefix (lit "null") s) as [rest|] eqn:E3; [|discriminate].
  intros [= <- <-]. apply strip_prefix_frame in E3. destruct E3 as [-> _].
  exists (lit "null"). split; [reflexivity|].
  split; [exists 108%N; now split|]. intros t. reflexivity.
Qed.

(** A value starts, after white space, with a character that is no white
    space of any kind and closes nothing. *)
Lemma parse_value_start f s (x : json * list N) :
  parse_value f s = Some x ->
  exists c r, skip_ws s = c :: r /\ is_js_space c = false
              /\ (c =? 93)%N = false /\ (c =? 125)%N = false.
Proof.
  destruct f as [|f]; [discriminate|]. cbn [parse_value].
  destruct (skip_ws s) as [|c r]; [discriminate|].
  assert (K : is_js_space c = false /\ (c =? 93)%N = false /\ (c =? 125)%N = false ->
              exists c0 r0, c :: r = c0 :: r0 /\ is_js_space c0 = false
                            /\ (c0 =? 93)%N = false /\ (c0 =? 125)%N = false)
    by (intros K; now exists c, r).
  destruct (N.eqb_spec c 123) as [->|_]; [intros _; now apply K|].
  destruct (N.eqb_spec c 91) as [->|_]; [intros _; now apply K|].
  destruct (N.eqb_spec c 34) as [->|_]; [intros _; now apply K|].
  destruct (N.eqb_spec c 45) as [->|_]; [intros _; now apply K|].
  cbn [orb]. destruct (is_digit c) eqn:D.
  - intros _. apply K. apply is_digit_range in D. unfold is_js_space.
    decide_cmp. now repeat split.
  - change (lit "true") with [116; 114; 117; 101]%N.
    change (lit "false") with [102; 97; 108; 115; 101]%N.
    change (lit "null") with [110; 117; 108; 108]%N.
    cbn [strip_prefix].
    destruct (N.eqb_spec 116 c) as [<-|_]; [intros _; now apply K|].
    destruct (N.eqb_spec 102 c) as [<-|_]; [intros _; now apply K|].
    destruct (N.eqb_spec 110 c) as [<-|_]; [intros _; now apply K|].
    discriminate.
Qed.

Lemma parse_elements_start f s (acc : list json) (x : json * list N) :
  parse_elements f s acc = Some x ->
  exists c r, skip_ws s = c :: r /\ (c =? 93)%N = false.
Proof.
  destruct f as [|f]; [discriminate|]. cbn [parse_elements].
  destruct (parse_value f s) as [y|] eqn:E; [|discriminate]. intros _.
  destruct (parse_value_start f s y E) as (c & r & H & _ & H93 & _).
  now exists c, r.
Qed.

Lemma parse_members_start f s (acc : list (list N * json)) (x : json * list N) :
  parse_members f s acc = Some x ->
  exists c r, skip_ws s = c :: r /\ (c =? 125)%N = false.
Proof.
  destruct f as [|f]; [discriminate|]. cbn [parse_members].
  destruct (skip_ws s) as [|q r]; [discriminate|].
  destruct (N.eqb_spec q 34) as [->|_]; [|discriminate].
  intros _. now exists 34%N, r.
Qed.

Ltac reassoc := repeat (rewrite <- ?app_assoc; cbn [app]); reflexivity.

Lemma closing_solid (c k : N) pre :
  (c =? k)%N = true -> is_js_space k = false -> solid (pre ++ [c]).
Proof. intros H Hk. apply N.eqb_eq in H. subst c. now apply solid_end. Qed.

Lemma mark_stops (c k : N) t :
  (c =? k)%N = true -> stops [k] = true -> stops (c :: t) = true.
Proof. intros H Hk. apply N.eqb_eq in H. now subst c. Qed.

(** What the parser makes of a text it accepts does not depend on what
    comes after the value, as long as that cannot continue a number. *)
Lemma parse_frame f :
  (forall s v r, parse_value f s = Some (v, r) ->
     exists pre, s = pre ++ r /\ solid pre
       /\ forall t, stops t = true -> parse_value f (pre ++ t) = Some (v, t))
  /\ (forall s acc v r, parse_elements f s acc = Some (v, r) ->
        exists pre, s = pre ++ r /\ solid pre
          /\ forall t, stops t = true ->
                parse_elements f (pre ++ t) acc = Some (v, t))
  /\ (forall s acc v r, parse_members f s acc = Some (v, r) ->
        exists pre, s = pre ++ r /\ solid pre
          /\ forall t, stops t = true ->
                parse_members f (pre ++ t) acc = Some (v, t)).
Proof.
  induction f as [|f (IHV & IHE & IHM)]; [repeat split; discriminate|].
  split; [|split].
  - intros s v r. cbn [parse_value].
    destruct (skip_ws s) as [|c r0] eqn:Es; [discriminate|].
    destruct (skip_ws_frame s c r0 Es) as (w & -> & Hw & Hc). clear Es.
    destruct (c =? 123)%N eqn:C1.
    { destruct (skip_ws r0) as [|c' r'] eqn:E0; [discriminate|].
      destruct (c' =? 125)%N eqn:C2.
      - intros [= <- <-].
        destruct (skip_ws_frame r0 c' r' E0) as (w' & -> & Hw' & Hc').
        exists (w ++ c :: w' ++ [c']). split; [reassoc|].
        split; [apply solid_app, solid_cons; now apply (closing_solid c' 125)|].
        intros t Ht.
        replace ((w ++ c :: w' ++ [c']) ++ t) with (w ++ c :: (w' ++ c' :: t)) by reassoc.
        cbn [parse_value].
        now rewrite (skip_ws_at w c _ Hw Hc), C1, (skip_ws_at w' c' _ Hw' Hc'), C2.
      - intros H. destruct (IHM _ _ _ _ H) as (pm & -> & Hs & Fm).
        exists (w ++ c :: pm). split; [reassoc|].
        split; [now apply solid_app, solid_cons|].
        intros t Ht.
        replace ((w ++ c :: pm) ++ t) with (w ++ c :: (pm ++ t)) by reassoc.
        cbn [parse_value]. rewrite (skip_ws_at w c _ Hw Hc), C1.
        destruct (parse_members_start _ _ _ _ (Fm t Ht)) as (q & r'' & Eq & Hq).
        rewrite Eq, Hq. exact (Fm t Ht). }
    destruct (c =? 91)%N eqn:C2.
    { destruct (skip_ws r0) as [|c' r'] eqn:E0; [discriminate|].
      destruct (c' =? 93)%N eqn:C3.
      - intros [= <- <-].
        destruct (skip_ws_frame r0 c' r' E0) as (w' & -> & Hw' & Hc').
        exists (w ++ c :: w' ++ [c']). split; [reassoc|].
        split; [apply solid_app, solid_cons; now apply (closing_solid c' 93)|].
        intros t Ht.
        replace ((w ++ c :: w' ++ [c']) ++ t) with (w ++ c :: (w' ++ c' :: t)) by reassoc.
        cbn [parse_value].
        now rewrite (skip_ws_at w c _ Hw Hc), C1, C2, (skip_ws_at w' c' _ Hw' Hc'), C3.
      - intros H. destruct (IHE _ _ _ _ H) as (pm & -> & Hs & Fm).
        exists (w ++ c :: pm). split; [reassoc|].
        split; [now apply solid_app, solid_cons|].
        intros t Ht.
        replace ((w ++ c :: pm) ++ t) with (w ++ c :: (pm ++ t)) by reassoc.
        cbn [parse_value]. rewrite (skip_ws_at w c _ Hw Hc), C1, C2.
        destruct (parse_elements_start _ _ _ _ (Fm t Ht)) as (q & r'' & Eq & Hq).
        rewrite Eq, Hq. exact (Fm t Ht). }
    destruct (c =? 34)%N eqn:C3.
    { destruct (parse_string_body r0) as [[cs rest]|] eqn:E0; [|discriminate].
      intros [= <- <-].
      destruct (parse_string_body_frame r0 cs rest E0) as (ps & -> & Hs & Fs).
      exists (w ++ c :: ps). split; [reassoc|].
      split; [now apply solid_app, solid_cons|].
      intros t Ht.
      replace ((w ++ c :: ps) ++ t) with (w ++ c :: (ps ++ t)) by reassoc.
      cbn [parse_value].
      now rewrite (skip_ws_at w c _ Hw Hc), C1, C2, C3, Fs. }
    destruct ((c =? 45)%N || is_digit c) eqn:C4.
    { destruct (parse_number (c :: r0)) as [[x rest]|] eqn:E0; [|discriminate].
      intros [= <- <-].
      destruct (parse_number_frame _ _ _ E0) as (pn & En & Hs & Fn).
      destruct pn as [|c0 pn]; [destruct Hs as (? & Hl & _); discriminate Hl|].
      injection En as <- ->.
      exists (w ++ c :: pn). split; [reassoc|].
      split; [now apply solid_app|].
      intros t Ht.
      replace ((w ++ c :: pn) ++ t) with (w ++ c :: (pn ++ t)) by reassoc.
      cbn [parse_value].
      rewrite (skip_ws_at w c _ Hw Hc), C1, C2, C3, C4.
      change (c :: pn ++ t) with ((c :: pn) ++ t). now rewrite (Fn t Ht). }
    intros H. destruct (literal_frame _ _ _ H) as (pl & El & Hs & Fl).
    destruct pl as [|c0 pl]; [destruct Hs as (? & Hl & _); discriminate Hl|].
    injection El as <- ->.
    exists (w ++ c :: pl). split; [reassoc|].
    split; [now apply solid_app|].
    intros t Ht.
    replace ((w ++ c :: pl) ++ t) with (w ++ c :: (pl ++ t)) by reassoc.
    cbn [parse_value].
    rewrite (skip_ws_at w c _ Hw Hc), C1, C2, C3, C4.
    exact (Fl t).
  - intros s acc v r. cbn [parse_elements].
    destruct (parse_value f s) as [[v1 r1]|] eqn:E1; [|discriminate].
    destruct (IHV _ _ _ E1) as (p1 & -> & Hs1 & F1).
    destruct (skip_ws r1) as [|c r'] eqn:E2; [discriminate|].
    destruct (skip_ws_frame r1 c r' E2) as (w & -> & Hw & Hc).
    destruct (c =? 44)%N eqn:C1.
    { intros H. destruct (IHE _ _ _ _ H) as (p2 & -> & Hs2 & F2).
      exists (p1 ++ w ++ c :: p2). split; [reassoc|].
      split; [now apply solid_app, solid_app, solid_cons|].
      intros t Ht.
      replace ((p1 ++ w ++ c :: p2) ++ t) with (p1 ++ (w ++ c :: (p2 ++ t))) by reassoc.
      cbn [parse_elements].
      rewrite (F1 _ (ws_then_stops w c _ Hw (mark_stops c 44 _ C1 eq_refl))).
      rewrite (skip_ws_at w c _ Hw Hc), C1. exact (F2 t Ht). }
    destruct (c =? 93)%N eqn:C2; [|discriminate].
    intros [= <- <-].
    exists (p1 ++ w ++ [c]). split; [reassoc|].
    split; [rewrite app_assoc; now apply (closing_solid c 93)|].
    intros t Ht.
    replace ((p1 ++ w ++ [c]) ++ t) with (p1 ++ (w ++ c :: t)) by reassoc.
    cbn [parse_elements].
    rewrite (F1 _ (ws_then_stops w c _ Hw (mark_stops c 93 _ C2 eq_refl))).
    now rewrite (skip_ws_at w c _ Hw Hc), C1, C2.
  - intros s acc v r. cbn [parse_members].
    destruct (skip_ws s) as [|q r0] eqn:E0; [discriminate|].
    destruct (skip_ws_frame s q r0 E0) as (w0 & -> & Hw0 & Hq). clear E0.
    destruct (q =? 34)%N eqn:Q; [|discriminate].
    destruct (parse_string_body r0) as [[k r1]|] eqn:Ek; [|discriminate].
    destruct (parse_string_body_frame r0 k r1 Ek) as (pk & -> & _ & Fk). clear Ek.
    destruct (skip_ws r1) as [|c r2] eqn:E1; [discriminate|].
    destruct (skip_ws_frame r1 c r2 E1) as (w1 & -> & Hw1 & Hc). clear E1.
    destruct (c =? 58)%N eqn:C; [|discriminate].
    destruct (parse_value f r2) as [[v1 r3]|] eqn:Ev; [|discriminate].
    destruct (IHV _ _ _ Ev) as (pv & -> & _ & Fv). clear Ev.
    destruct (skip_ws r3) as [|c' r4] eqn:E3; [discriminate|].
    destruct (skip_ws_frame r3 c' r4 E3) as (w3 & -> & Hw3 & Hc'). clear E3.
    destruct (c' =? 44)%N eqn:C1.
    { intros H. destruct (IHM _ _ _ _ H) as (pm & -> & Hsm & Fm).
      exists (w0 ++ q :: pk ++ w1 ++ c :: pv ++ w3 ++ c' :: pm). split; [reassoc|].
      split; [now apply solid_app, solid_cons, solid_app, solid_app, solid_cons,
                        solid_app, solid_app, solid_cons|].
      intros t Ht.
      replace ((w0 ++ q :: pk ++ w1 ++ c :: pv ++ w3 ++ c' :: pm) ++ t)
        with (w0 ++ q :: (pk ++ (w1 ++ c :: (pv ++ (w3 ++ c' :: (pm ++ t))))))
        by reassoc.
      cbn [parse_members].
      rewrite (skip_ws_at w0 q _ Hw0 Hq), Q, Fk, (skip_ws_at w1 c _ Hw1 Hc), C.
      rewrite (Fv _ (ws_then_stops w3 c' _ Hw3 (mark_stops c' 44 _ C1 eq_refl))).
      rewrite (skip_ws_at w3 c' _ Hw3 Hc'), C1. exact (Fm t Ht). }
    destruct (c' =? 125)%N eqn:C2; [|discriminate].
    intros [= <- <-].
    exists (w0 ++ q :: pk ++ w1 ++ c :: pv ++ w3 ++ [c']). split; [reassoc|].
    split.
    { replace (w0 ++ q :: pk ++ w1 ++ c :: pv ++ w3 ++ [c'])
        with ((w0 ++ q :: pk ++ w1 ++ c :: pv ++ w3) ++ [c']) by reassoc.
      now apply (closing_solid c' 125). }
    intros t Ht.
    replace ((w0 ++ q :: pk ++ w1 ++ c :: pv ++ w3 ++ [c']) ++ t)
      with (w0 ++ q :: (pk ++ (w1 ++ c :: (pv ++ (w3 ++ c' :: t)))))
      by reassoc.
    cbn [parse_members].
    rewrite (skip_ws_at w0 q _ Hw0 Hq), Q, Fk, (skip_ws_at w1 c _ Hw1 Hc), C.
    rewrite (Fv _ (ws_then_stops w3 c' _ Hw3 (mark_stops c' 125 _ C2 eq_refl))).
    now rewrite (skip_ws_at w3 c' _ Hw3 Hc'), C1, C2.
Qed.

Lemma trimEnd_fixed s :
  (forall c, last s = Some c -> is_js_space c = false) -> trimEnd s = s.
Proof.
  induction s as [|c s IH]; [reflexivity|]. intros H. simpl.
  destruct s as [|d s'].
  - simpl. now rewrite (H c eq_refl).
  - rewrite IH by (intros x Hx; apply H; exact Hx). reflexivity.
Qed.

Lemma skip_ws_nil s : skip_ws s = [] -> Forall (fun a => is_json_ws a = true) s.
Proof.
  induction s as [|a s IH]; simpl; [constructor|].
  destruct (is_json_ws a) eqn:E; [|discriminate]. intros H. constructor; auto.
Qed.

Lemma skip_ws_idempotent s : skip_ws (skip_ws s) = skip_ws s.
Proof.
  induction s as [|a s IH]; simpl; [reflexivity|].
  destruct (is_json_ws a) eqn:E; [exact IH|]. simpl. now rewrite E.
Qed.

Lemma parse_value_skip_ws f s : parse_value f (skip_ws s) = parse_value f s.
Proof.
  destruct f as [|f]; [reflexivity|]. cbn [parse_value].
  now rewrite skip_ws_idempotent.
Qed.

Lemma trimStart_skip_ws s (c : N) r :
  skip_ws s = c :: r -> is_js_space c = false -> trimStart s = c :: r.
Proof.
  intros Hs Hc. induction s as [|a s IH]; simpl in *; [discriminate|].
  destruct (is_json_ws a) eqn:E.
  - rewrite (json_ws_space a E). now apply IH.
  - injection Hs as -> ->. now rewrite Hc.
Qed.

Lemma trimEnd_ws_end pre r :
  Forall (fun a => is_json_ws a = true) r -> trimEnd (pre ++ r) = trimEnd pre.
Proof.
  induction r as [|a r IH] using rev_ind; intros H; [now rewrite app_nil_r|].
  apply Forall_app in H. destruct H as [Hr Ha].
  apply Forall_cons in Ha. destruct Ha as [Ha _].
  rewrite app_assoc, (trimEnd_space_end _ a (json_ws_space a Ha)). now apply IH.
Qed.

Lemma trimEnd_solid pre r :
  solid pre -> skip_ws r = [] -> trimEnd (pre ++ r) = pre.
Proof.
  intros (c & Hl & Hc) Hr.
  rewrite (trimEnd_ws_end pre r (skip_ws_nil r Hr)).
  apply trimEnd_fixed. intros x Hx. congruence.
Qed.

(** [JSON.parse] of a JSON text and of the text trimmed give the same
    value: the white space that JSON allows around a value is white space
    for [trim] too, and a value neither starts nor ends with any. *)
Lemma JSON_parse_trim s (v : json) :
  JSON_parse s = Some v -> JSON_parse (trim s) = Some v.
Proof.
  unfold JSON_parse at 1.
  destruct (parse_value (length s) s) as [[v' r]|] eqn:E; [|discriminate].
  destruct (skip_ws r) eqn:Er; [|discriminate]. intros [= ->].
  destruct (parse_value_start _ _ _ E) as (c & r0 & Hs & Hc & _ & _).
  assert (E' : parse_value (length s) (trimStart s) = Some (v, r)).
  { rewrite (trimStart_skip_ws s c r0 Hs Hc), <- Hs, parse_value_skip_ws. exact E. }
  destruct (proj1 (parse_frame (length s)) _ _ _ E') as (pre & Hpre & Hsolid & F).
  unfold trim. rewrite Hpre, (trimEnd_solid pre r Hsolid Er).
  apply (JSON_parse_complete (length s) pre v []); [|reflexivity].
  rewrite <- (app_nil_r pre) at 1. now apply F.
Qed.

Lemma direct_parse_checked (content : list N) (v : json) :
  JSON_parse (cleanContent content) = Some v -> has_ideas_array v = Ok true ->
  recover content = Parsed v.
Proof.
  intros Hp Hi. unfold recover, direct_parse.
  rewrite Hp. unfold mbind, result_bind. now rewrite Hi.
Qed.

End Frame.

(** C8, as the code has it.  Let [j] be a JSON text ([JSON.parse] gives it
    the value [v]) with no three backticks in a row.  Of the reply [j]
    between code fences, with or without the [json] tag and with a newline
    after the opening and before the closing fence, the recovery strips the
    fences and parses what [JSON.parse] makes of [j] itself; the reply is
    recovered and answered as the reply [j] alone is; and when [v] holds a
    list under [ideas] the recovery yields [v] and the answer is the success
    response with [v]. *)
Theorem fenced_reply_parses_alike (j : list N) (v : json) :
  JSON_parse j = Some v -> occurs fence j = false ->
  (JSON_parse (cleanContent (fenced_json j)) = JSON_parse j
   /\ JSON_parse (cleanContent (fenced_plain j)) = JSON_parse j)
  /\ (recover (fenced_json j) = recover j
      /\ recover (fenced_plain j) = recover j)
  /\ (reply_response (fenced_json j) = reply_response j
      /\ reply_response (fenced_plain j) = reply_response j)
  /\ (has_ideas_array v = Ok true ->
      recover (fenced_json j) = Parsed v
      /\ recover (fenced_plain j) = Parsed v
      /\ reply_response (fenced_json j) = success_response v
      /\ reply_response (fenced_plain j) = success_response v).
Proof.
  intros Hv Hf.
  destruct (brace_match_fenced j) as [Bj Bp].
  pose proof (cleanContent_fenced_json j) as Cj.
  pose proof (cleanContent_fenced_plain j) as Cp.
  pose proof (cleanContent_no_fence j Hf) as Ct.
  pose proof (JSON_parse_trim j v Hv) as Ht.
  assert (Rj : recover (fenced_json j) = recover j).
  { unfold recover, direct_parse. now rewrite Cj, Bj. }
  assert (Rp : recover (fenced_plain j) = recover j).
  { unfold recover, direct_parse. now rewrite Cp, Bp. }
  split; [|split; [|split]].
  - rewrite Cj, Cp, Ct, Ht, Hv. now split.
  - now split.
  - unfold reply_response. rewrite Rj, Rp. now split.
  - intros Hi.
    assert (R : recover j = Parsed v)
      by (apply direct_parse_checked; [now rewrite Ct | exact Hi]).
    unfold reply_response. rewrite Rj, Rp, R. now repeat split.
Qed.

(** [fenced_reply_parses_alike] on a JSON text with white space around
    it. *)
Lemma fenced_reply_parses_alike_witness :
  let j := qlit " {'ideas':[{'title':'x'}],'n':1.5} " in
  let v := JObj [(lit "ideas", JArr [JObj [(lit "title", JStr (lit "x"))]]);
                 (lit "n", JNum (Dec 15 (-1)))] in
  JSON_parse j = Some v
  /\ JSON_parse (cleanContent (fenced_json j)) = JSON_parse j
  /\ recover (fenced_plain j) = Parsed v.
Proof.
  cbv zeta. split; [reflexivity|].
  split.
  - refine (proj1 (proj1 (fenced_reply_parses_alike _ _ _ _))); reflexivity.
  - refine (proj1 (proj2 (proj2 (proj2 (proj2
              (fenced_reply_parses_alike _ _ _ _))) _))); reflexivity.
Defined.

(** C8 fails as stated: the recovery removes every run of three backticks,
    also one inside a string of [j], so of the JSON text
    [{'ideas':['a```b']}] (with double quotes) between fences it yields
    the string [ab] where [JSON.parse] of the text gives [a```b]. *)
Lemma fenced_backticks_lost :
  let j := qlit "{'ideas':['a```b']}" in
  occurs fence j = true
  /\ JSON_parse j = Some (JObj [(lit "ideas", JArr [JStr (lit "a```b")])])
  /\ JSON_parse (cleanContent (fenced_json j))
     = Some (JObj [(lit "ideas", JArr [JStr (lit "ab")])])
  /\ recover (fenced_json j) = Parsed (JObj [(lit "ideas", JArr [JStr (lit "ab")])])
  /\ recover (fenced_plain j) = Parsed (JObj [(lit "ideas", JArr [JStr (lit "ab")])]).
Proof. vm_compute. repeat split. Qed.

(** * Further properties of the code *)

(** ** The caller key *)

Section CallerKey.

Lemma before_comma_no_comma (s : list N) :
  Forall (fun c => c <> 44%N) (before_comma s).
Proof.
  induction s as [|c s IH]; simpl; [constructor|].
  destruct (N.eqb_spec c 44); [constructor | now constructor].
Qed.

Lemma before_comma_prefix (s : list N) : before_comma s `prefix_of` s.
Proof.
  induction s as [|c s IH]; simpl; [reflexivity|].
  destruct (c =? 44)%N; [apply prefix_nil | now apply prefix_cons].
Qed.

End CallerKey.

(** X1.  The caller key is never empty.  It is the first entry of
    [x-forwarded-for], trimmed, when that entry is not blank: then it has no
    comma and no white space at either end.  Otherwise it is [x-real-ip]
    when that header is present and not empty, and ["unknown"] when not. *)
Theorem getRateLimitKey_spec (req : Request) :
  getRateLimitKey req <> []
  /\ (forall f, header req "x-forwarded-for" = Some f ->
        trim (before_comma f) <> [] ->
        getRateLimitKey req = trim (before_comma f)
        /\ Forall (fun c => c <> 44%N) (getRateLimitKey req)
        /\ (forall c, head (getRateLimitKey req) = Some c -> is_js_space c = false)
        /\ (forall c, last (getRateLimitKey req) = Some c -> is_js_space c = false))
  /\ (header req "x-forwarded-for" = None
      \/ (exists f, header req "x-forwarded-for" = Some f
                    /\ trim (before_comma f) = []) ->
      (forall ip, header req "x-real-ip" = Some ip -> ip <> [] ->
         getRateLimitKey req = ip)
      /\ (header req "x-real-ip" = None \/ header req "x-real-ip" = Some [] ->
          getRateLimitKey req = lit "unknown")).
Proof.
  unfold getRateLimitKey. split; [|split].
  - destruct (header req "x-forwarded-for") as [f|];
      [destruct (trim (before_comma f)); [|discriminate]|];
      destruct (header req "x-real-ip") as [[|c r]|]; discriminate.
  - intros f -> Hne.
    destruct (trim (before_comma f)) as [|c k] eqn:E; [congruence|].
    rewrite <- E. split; [reflexivity|]. split; [|split].
    + apply trim_Forall, before_comma_no_comma.
    + apply trim_head.
    + apply trim_last.
  - intros Hf.
    assert (E : match header req "x-forwarded-for" with
                | Some f => trim (before_comma f)
                | None => []
                end = []).
    { destruct Hf as [-> | (f & -> & Hf)]; [reflexivity | exact Hf]. }
    rewrite E. split.
    + intros ip -> Hip. destruct ip; congruence.
    + intros [-> | ->]; reflexivity.
Qed.

(** ** The limiter under the handler *)

Section Slots.

Implicit Types (m : gmap (list N) RateLimitRecord) (req : Request).

Lemma checkRateLimit_stores now (key : list N) m :
  is_Some ((checkRateLimit now key m).2 !! key).
Proof.
  destruct (checkRateLimit_cases now key m)
    as [[_ ->] | [(r & Hr & _ & _ & _ & ->) | (r & _ & _ & _ & _ & ->)]].
  - rewrite lookup_insert_eq. eauto.
  - rewrite Hr. eauto.
  - rewrite lookup_insert_eq. eauto.
Qed.

Lemma handler_map now gateway req m :
  (handler now gateway req m).2
  = if str_eqb (method req) (lit "OPTIONS") then m
    else (checkRateLimit now (getRateLimitKey req) m).2.
Proof.
  destruct (str_eqb (method req) (lit "OPTIONS")) eqn:E.
  - unfold handler. now rewrite E.
  - now rewrite handler_not_options.
Qed.

Lemma handler_bounded now gateway req m :
  counts_bounded m -> counts_bounded (handler now gateway req m).2.
Proof.
  intros H. rewrite handler_map.
  destruct (str_eqb (method req) (lit "OPTIONS")); [exact H|].
  now apply checkRateLimit_bounded.
Qed.

Lemma serve_all_bounded_from (calls : list Call) : forall m,
  counts_bounded m -> counts_bounded (serve_all calls m).2.
Proof.
  induction calls as [|c rest IH]; intros m Hm; simpl; [exact Hm|].
  destruct (handler (call_now c) (call_gateway c) (call_request c) m)
    as [r m1] eqn:E.
  specialize (IH m1). destruct (serve_all rest m1) as [rs m2]. simpl in *.
  apply IH. replace m1 with (handler (call_now c) (call_gateway c) (call_request c) m).2
    by now rewrite E.
  now apply handler_bounded.
Qed.

End Slots.

(** X2.  Every request that is not OPTIONS takes its slot whatever comes
    of it: the map after the handler is the map after [checkRateLimit],
    also when the request is then refused as too large or invalid, when the
    gateway fails, or when an exception is caught.  The caller's key has a
    record afterwards, and no other key's record is touched. *)
Theorem handler_consumes_slot (now : Z) (gateway : list N -> FetchResult)
    (req : Request) (m : gmap (list N) RateLimitRecord) :
  str_eqb (method req) (lit "OPTIONS") = false ->
  (handler now gateway req m).2 = (checkRateLimit now (getRateLimitKey req) m).2
  /\ is_Some ((handler now gateway req m).2 !! getRateLimitKey req)
  /\ (forall k, k <> getRateLimitKey req ->
        (handler now gateway req m).2 !! k = m !! k).
Proof.
  intros H. rewrite handler_map, H. split; [reflexivity|]. split.
  - apply checkRateLimit_stores.
  - intros k. apply checkRateLimit_other.
Qed.

(** [handler_consumes_slot] on a request whose body is not JSON. *)
Lemma handler_consumes_slot_witness :
  status (handler 0 (gateway_status 200) (post [] (lit "not json")) ∅).1 = 500
  /\ (handler 0 (gateway_status 200) (post [] (lit "not json")) ∅).2
     = (checkRateLimit 0 (lit "unknown") ∅).2.
Proof.
  split; [reflexivity|].
  exact (proj1 (handler_consumes_slot 0 (gateway_status 200)
                  (post [] (lit "not json")) ∅ eq_refl)).
Defined.

(** X3.  Whatever requests the handler serves, from the empty map on, every
    record it stores counts between 1 and 20. *)
Theorem serve_all_bounded (calls : list Call) :
  counts_bounded (serve_all calls ∅).2.
Proof.
  apply serve_all_bounded_from. intros k r. now rewrite lookup_empty.
Qed.

(** X4.  Callers do not interfere: the answer to a key depends on that
    key's record alone, and checks of two different keys give the same
    answers and the same map in either order. *)
Theorem checkRateLimit_independent (m : gmap (list N) RateLimitRecord)
    (k1 k2 : list N) (t1 t2 : Z) :
  k1 <> k2 ->
  (checkRateLimit t2 k2 (checkRateLimit t1 k1 m).2).1 = (checkRateLimit t2 k2 m).1
  /\ (checkRateLimit t1 k1 (checkRateLimit t2 k2 m).2).1 = (checkRateLimit t1 k1 m).1
  /\ (checkRateLimit t2 k2 (checkRateLimit t1 k1 m).2).2
     = (checkRateLimit t1 k1 (checkRateLimit t2 k2 m).2).2.
Proof.
  intros Hk.
  assert (Hdep : forall t k (ma mb : gmap (list N) RateLimitRecord),
             ma !! k = mb !! k ->
             (checkRateLimit t k ma).1 = (checkRateLimit t k mb).1
             /\ (checkRateLimit t k ma).2 !! k = (checkRateLimit t k mb).2 !! k).
  { intros t k ma mb E. unfold checkRateLimit. rewrite E.
    destruct (mb !! k) as [r|] eqn:Eb.
    - destruct (t >? resetTime r); [simpl; now rewrite !lookup_insert_eq|].
      destruct (count r >=? RATE_LIMIT_MAX); simpl;
        [now rewrite E, Eb | now rewrite !lookup_insert_eq].
    - simpl. now rewrite !lookup_insert_eq. }
  assert (H12 : (checkRateLimit t1 k1 m).2 !! k2 = m !! k2)
    by (apply checkRateLimit_other; congruence).
  assert (H21 : (checkRateLimit t2 k2 m).2 !! k1 = m !! k1)
    by (apply checkRateLimit_other; congruence).
  destruct (Hdep t2 k2 _ _ H12) as [A2 B2].
  destruct (Hdep t1 k1 _ _ H21) as [A1 B1].
  split; [exact A2|]. split; [exact A1|].
  apply map_eq. intros k.
  destruct (decide (k = k2)) as [->|N2].
  - rewrite B2. symmetry. rewrite checkRateLimit_other by congruence. reflexivity.
  - rewrite checkRateLimit_other by assumption.
    destruct (decide (k = k1)) as [->|N1].
    + now rewrite B1.
    + rewrite !checkRateLimit_other by assumption. reflexivity.
Qed.

(** [checkRateLimit_independent] on two callers, one of them at the limit. *)
Lemma checkRateLimit_independent_witness :
  let m : gmap (list N) RateLimitRecord :=
    <[lit "a" := {| count := 20; resetTime := 5000 |}]> ∅ in
  (checkRateLimit 1000 (lit "b") (checkRateLimit 1000 (lit "a") m).2).2
  = (checkRateLimit 1000 (lit "a") (checkRateLimit 1000 (lit "b") m).2).2.
Proof.
  cbv zeta.
  refine (proj2 (proj2 (checkRateLimit_independent _ (lit "a") (lit "b") 1000 1000 _))).
  discriminate.
Defined.

(** ** Validation of the body *)

Section Validation.

Implicit Types (m : gmap (list N) RateLimitRecord) (req : Request).

Lemma get_prop_field (b : json) (name : string) :
  b <> JNull -> get_prop (Some b) (lit name) = Ok (field_of b name).
Proof. destruct b; simpl; congruence. Qed.

(** The outer [try] on a body that parses to a value other than [null]:
    the two numbers are read before any field is checked. *)
Lemma prepare_fields req (b : json) :
  too_large req = false -> JSON_parse (body_text req) = Some b -> b <> JNull ->
  prepare req
  = let domain := sanitizeString (field_of b "domain") in
    let audience := sanitizeString (field_of b "audience") in
    let difficulty := sanitizeString (field_of b "difficulty") in
    let mode := sanitizeString (field_of b "mode") in
    time_available_days ←
      validateNumber (field_of b "time_available_days")
        (of_Z 1) (of_Z MAX_DAYS) (of_Z 7);
    multi_idea_count ←
      validateNumber (field_of b "multi_idea_count")
        (of_Z 1) (of_Z MAX_IDEA_COUNT) (of_Z 3);
    if is_empty domain || is_empty audience || is_empty difficulty
       || is_empty mode then
      Ok (inl (json_error 400
                 "Missing required fields: domain, audience, difficulty, mode"))
    else if negb (includes VALID_DIFFICULTIES (toLowerCase difficulty)) then
      Ok (inl (json_error 400 "Invalid difficulty level"))
    else if negb (includes VALID_MODES (toLowerCase mode)) then
      Ok (inl (json_error 400 "Invalid mode"))
    else
      Ok (inr (userPrompt domain audience difficulty mode
                 (sanitizeString (field_of b "skills"))
                 (sanitizeString (field_of b "constraints"))
                 time_available_days multi_idea_count)).
Proof.
  intros Hl Hb Hn. unfold prepare. rewrite Hl, Hb.
  unfold mbind, result_bind.
  rewrite !(get_prop_field b _ Hn). reflexivity.
Qed.

Lemma handler_allowed now gateway req m :
  str_eqb (method req) (lit "OPTIONS") = false ->
  allowed (checkRateLimit now (getRateLimitKey req) m).1 = true ->
  (handler now gateway req m).1
  = match try_block gateway req with
    | Ok response => response
    | Throw => unexpected_error_response
    end.
Proof.
  intros Hm Ha. rewrite handler_not_options by assumption.
  cbv zeta. cbn [fst]. now rewrite Ha.
Qed.

End Validation.

(** X5.  A request that passes the limiter and the size check and whose
    body parses to a value other than [null] is checked in this order.
    The two numbers are read first: when [String] throws on the value under
    [time_available_days] or [multi_idea_count] (an object with an own
    [toString]) the answer is the generic 500, whatever the other fields
    hold.  Then a required field ([domain], [audience], [difficulty],
    [mode]) that is missing, not a string or blank after sanitizing gives
    400 "Missing required fields"; then a difficulty outside the list gives
    400 "Invalid difficulty level"; then a mode outside the list gives 400
    "Invalid mode".  None of these depends on the gateway. *)
Theorem validation_outcomes (now : Z) (gateway : list N -> FetchResult)
    (req : Request) (m : gmap (list N) RateLimitRecord) (b : json) :
  str_eqb (method req) (lit "OPTIONS") = false ->
  allowed (checkRateLimit now (getRateLimitKey req) m).1 = true ->
  too_large req = false ->
  JSON_parse (body_text req) = Some b -> b <> JNull ->
  let r := (handler now gateway req m).1 in
  let days :=
    validateNumber (field_of b "time_available_days")
      (of_Z 1) (of_Z MAX_DAYS) (of_Z 7) in
  let count :=
    validateNumber (field_of b "multi_idea_count")
      (of_Z 1) (of_Z MAX_IDEA_COUNT) (of_Z 3) in
  let domain := sanitizeString (field_of b "domain") in
  let audience := sanitizeString (field_of b "audience") in
  let difficulty := sanitizeString (field_of b "difficulty") in
  let mode := sanitizeString (field_of b "mode") in
  let missing :=
    is_empty domain || is_empty audience || is_empty difficulty || is_empty mode in
  (days = Throw \/ count = Throw ->
   r = json_error 500 "An unexpected error occurred. Please try again.")
  /\ (days <> Throw -> count <> Throw ->
      (missing = true ->
       r = json_error 400
             "Missing required fields: domain, audience, difficulty, mode")
      /\ (missing = false ->
          includes VALID_DIFFICULTIES (toLowerCase difficulty) = false ->
          r = json_error 400 "Invalid difficulty level")
      /\ (missing = false ->
          includes VALID_DIFFICULTIES (toLowerCase difficulty) = true ->
          includes VALID_MODES (toLowerCase mode) = false ->
          r = json_error 400 "Invalid mode")).
Proof.
  intros Hm Ha Hl Hb Hn. cbv zeta.
  rewrite (handler_allowed now gateway req m Hm Ha).
  unfold try_block.
  rewrite (prepare_fields req b Hl Hb Hn). cbv zeta.
  unfold mbind, result_bind.
  destruct (validateNumber (field_of b "time_available_days") _ _ _) as [days|];
    destruct (validateNumber (field_of b "multi_idea_count") _ _ _) as [count|];
    (split; [intros [H | H]; try discriminate H; reflexivity|]);
    intros Hd Hc; try (now destruct Hd); try (now destruct Hc).
  split; [|split].
  - intros ->. reflexivity.
  - intros -> ->. reflexivity.
  - intros -> -> ->. reflexivity.
Qed.

(** [validation_outcomes] on a body whose difficulty is not in the list,
    and on the same body with an object that has an own [toString] under
    [time_available_days]. *)
Lemma validation_outcomes_witness :
  (handler 0 (gateway_status 200)
     (post [] (qlit "{'domain':'a','audience':'b','difficulty':'expert','mode':'startup'}"))
     ∅).1
  = json_error 400 "Invalid difficulty level"
  /\ (handler 0 (gateway_status 200)
        (post [] (qlit "{'domain':'a','audience':'b','difficulty':'expert','mode':'startup','time_available_days':{'toString':1}}"))
        ∅).1
     = json_error 500 "An unexpected error occurred. Please try again.".
Proof.
  split.
  - refine (proj1 (proj2 (proj2
      (validation_outcomes 0 (gateway_status 200)
         (post [] (qlit "{'domain':'a','audience':'b','difficulty':'expert','mode':'startup'}"))
         ∅
         (JObj [(lit "domain", JStr (lit "a")); (lit "audience", JStr (lit "b"));
                (lit "difficulty", JStr (lit "expert"));
                (lit "mode", JStr (lit "startup"))])
         _ _ _ _ _) _ _)) _ _);
      (reflexivity || discriminate).
  - refine (proj1
      (validation_outcomes 0 (gateway_status 200)
         (post [] (qlit "{'domain':'a','audience':'b','difficulty':'expert','mode':'startup','time_available_days':{'toString':1}}"))
         ∅
         (JObj [(lit "domain", JStr (lit "a")); (lit "audience", JStr (lit "b"));
                (lit "difficulty", JStr (lit "expert"));
                (lit "mode", JStr (lit "startup"));
                (lit "time_available_days", JObj [(lit "toString", JNum (of_Z 1))])])
         _ _ _ _ _) _);
      try (reflexivity || discriminate). left. reflexivity.
Defined.

(** X6.  A request that passes the limiter and the size check and whose
    body is not JSON (an empty body too) or is [null] is answered 500 with
    the generic message; a body that is JSON but not an object (an array, a
    string, a number, a boolean) has no fields and is answered 400 "Missing
    required fields". *)
Theorem malformed_body (now : Z) (gateway : list N -> FetchResult)
    (req : Request) (m : gmap (list N) RateLimitRecord) :
  str_eqb (method req) (lit "OPTIONS") = false ->
  allowed (checkRateLimit now (getRateLimitKey req) m).1 = true ->
  too_large req = false ->
  (JSON_parse (body_text req) = None \/ JSON_parse (body_text req) = Some JNull ->
   (handler now gateway req m).1
   = json_error 500 "An unexpected error occurred. Please try again.")
  /\ (forall b, JSON_parse (body_text req) = Some b -> b <> JNull ->
        (forall fields, b <> JObj fields) ->
        (handler now gateway req m).1
        = json_error 400 "Missing required fields: domain, audience, difficulty, mode").
Proof.
  intros Hm Ha Hl. rewrite (handler_allowed now gateway req m Hm Ha).
  unfold try_block, mbind, result_bind. split.
  - unfold prepare. rewrite Hl. intros [-> | ->]; reflexivity.
  - intros b Hb Hn Ho. rewrite (prepare_fields req b Hl Hb Hn).
    destruct b; try reflexivity. now destruct (Ho fields).
Qed.

(** [malformed_body] on an empty body. *)
Lemma malformed_body_witness :
  (handler 0 (gateway_status 200) (post [] []) ∅).1
  = json_error 500 "An unexpected error occurred. Please try again.".
Proof.
  refine (proj1 (malformed_body 0 (gateway_status 200) (post [] []) ∅ _ _ _) _);
    [reflexivity | reflexivity | reflexivity | left; reflexivity].
Defined.

(** X7.  The gateway is consulted on nothing but the prompt that
    validation built: two gateways that agree on that prompt (any two, when
    validation builds none) give the same response and the same map. *)
Theorem gateway_only_on_prompt (now : Z) (g1 g2 : list N -> FetchResult)
    (req : Request) (m : gmap (list N) RateLimitRecord) :
  (forall prompt, prepare req = Ok (inr prompt) -> g1 prompt = g2 prompt) ->
  handler now g1 req m = handler now g2 req m.
Proof.
  intros H. unfold handler.
  destruct (str_eqb (method req) (lit "OPTIONS")); [reflexivity|]. cbv zeta.
  destruct (checkRateLimit now (getRateLimitKey req) m) as [rc m'].
  destruct (negb (allowed rc)); [reflexivity|].
  unfold try_block, mbind, result_bind.
  destruct (prepare req) as [[early|prompt]|]; try reflexivity.
  now rewrite (H prompt eq_refl).
Qed.

(** [gateway_only_on_prompt] on a request that passes validation: the
    gateway that always answers and the one that answers on the prompt of
    this request and fails on every other text differ, and are not told
    apart. *)
Lemma gateway_only_on_prompt_witness :
  let req := post [] sample_body in
  let g1 := completion (qlit "'{}'") in
  let g2 := fun prompt =>
    if str_eqb prompt
         (userPrompt (lit "fitness") (lit "students") (lit "beginner") (lit "hackathon")
            [] [] (of_Z 7) (of_Z 3))
    then g1 prompt else FetchReject in
  prepare req
  = Ok (inr (userPrompt (lit "fitness") (lit "students") (lit "beginner") (lit "hackathon")
               [] [] (of_Z 7) (of_Z 3)))
  /\ g1 [] <> g2 []
  /\ handler 0 g1 req ∅ = handler 0 g2 req ∅.
Proof.
  cbv zeta. split; [reflexivity|]. split; [discriminate|].
  apply gateway_only_on_prompt.
  intros prompt H.
  assert (E : prompt
              = userPrompt (lit "fitness") (lit "students") (lit "beginner")
                  (lit "hackathon") [] [] (of_Z 7) (of_Z 3))
    by (change (prepare (post [] sample_body)) with
          (Ok (A := Response + list N)
             (inr (userPrompt (lit "fitness") (lit "students") (lit "beginner")
                     (lit "hackathon") [] [] (of_Z 7) (of_Z 3)))) in H;
        congruence).
  rewrite E. unfold str_eqb. now rewrite bool_decide_eq_true_2.
Defined.

(** ** The prompt *)

Section Prompt.

Lemma no_angle_lit (l : list N) :
  forallb (fun c => negb (is_angle c)) l = true -> Forall no_angle l.
Proof.
  intros H. apply Forall_forall. intros c Hc.
  apply list_elem_of_In in Hc.
  pose proof (proj1 (forallb_forall _ l) H c Hc) as Hn.
  unfold is_angle in Hn. apply negb_true_iff, orb_false_iff in Hn.
  destruct Hn as [H1 H2]. apply N.eqb_neq in H1, H2. now split.
Qed.

Lemma uint_digits_no_angle (u : Decimal.uint) : Forall no_angle (uint_digits u).
Proof. induction u; simpl; constructor; (assumption || (split; discriminate)). Qed.

Lemma strip_zeros_end_no_angle (ds : list N) :
  Forall no_angle ds -> Forall no_angle (strip_zeros_end ds).
Proof.
  induction 1 as [|d ds Hd _ IH]; simpl; [constructor|].
  destruct (strip_zeros_end ds) as [|x r].
  - destruct (d =? 48)%N; repeat constructor; apply Hd.
  - now constructor.
Qed.

Ltac no_angles :=
  repeat first
    [ assumption
    | apply Forall_nil_2
    | apply Forall_cons_2; [first [assumption | split; discriminate]|]
    | apply Forall_app_2
    | apply Forall_replicate; split; discriminate
    | apply Forall_take
    | apply Forall_drop
    | apply uint_digits_no_angle ].

Lemma print_decimal_no_angle (ds : list N) (n : Z) :
  Forall no_angle ds -> Forall no_angle (print_decimal ds n).
Proof.
  intros H. unfold print_decimal, zeros, nat_digits.
  repeat match goal with
         | |- context [if ?c then _ else _] => destruct c
         end; try (no_angles; fail);
    (destruct H as [|d r Hd Hr]; [no_angles|]);
    (destruct r as [|d2 r2]; [no_angles|]);
    apply Forall_cons in Hr; destruct Hr; no_angles.
Qed.

Lemma Number_toString_no_angle (x : number) : Forall no_angle (Number_toString x).
Proof.
  destruct x as [| | |m e]; try (apply no_angle_lit; reflexivity).
  unfold Number_toString.
  destruct (m =? 0); [apply no_angle_lit; reflexivity|].
  destruct (match shortest _ _ _ _ _ with Some ce => ce | None => _ end) as [c ex].
  apply Forall_app. split.
  - destruct (m <? 0); repeat constructor; discriminate.
  - apply print_decimal_no_angle, strip_zeros_end_no_angle, uint_digits_no_angle.
Qed.

Lemma sanitizeString_no_angle (v : option json) : Forall no_angle (sanitizeString v).
Proof.
  destruct v as [[| | | s | |]|]; try constructor.
  apply Forall_take, trim_Forall, strip_angles_clean.
Qed.

Lemma or_default_no_angle (s : list N) :
  Forall no_angle s ->
  Forall no_angle (or_default s "Not specified")
  /\ Forall no_angle (or_default s "None specified").
Proof.
  intros H. destruct s; simpl; split; try exact H; apply no_angle_lit; reflexivity.
Qed.

Lemma userPrompt_no_angle (domain audience difficulty mode skills constraints : list N)
    (days count : number) :
  Forall no_angle domain -> Forall no_angle audience ->
  Forall no_angle difficulty -> Forall no_angle mode ->
  Forall no_angle skills -> Forall no_angle constraints ->
  Forall no_angle
    (userPrompt domain audience difficulty mode skills constraints days count).
Proof.
  intros Hd Ha Hf Hm Hs Hc. unfold userPrompt.
  destruct (or_default_no_angle skills Hs) as [Hs' _].
  destruct (or_default_no_angle constraints Hc) as [_ Hc'].
  repeat (apply Forall_app; split);
    try assumption; try apply Number_toString_no_angle;
    apply no_angle_lit; reflexivity.
Qed.

End Prompt.

(** X8.  The prompt that validation hands to the gateway never contains
    [<] or [>], whatever the body of the request holds. *)
Theorem prompt_has_no_angle_brackets (req : Request) (prompt : list N) :
  prepare req = Ok (inr prompt) -> Forall no_angle prompt.
Proof.
  intros H.
  destruct (too_large req) eqn:Hl; [unfold prepare in H; rewrite Hl in H; discriminate|].
  destruct (JSON_parse (body_text req)) as [b|] eqn:Hb;
    [|unfold prepare in H; rewrite Hl, Hb in H; discriminate].
  assert (Hnull : b = JNull \/ b <> JNull)
    by (destruct b; ((now left) || (right; discriminate))).
  destruct Hnull as [->|Hn];
    [unfold prepare in H; rewrite Hl, Hb in H; discriminate|].
  rewrite (prepare_fields req b Hl Hb Hn) in H. cbv zeta in H.
  unfold mbind, result_bind in H.
  destruct (validateNumber (field_of b "time_available_days") _ _ _) as [days|];
    [|discriminate H].
  destruct (validateNumber (field_of b "multi_idea_count") _ _ _) as [count|];
    [|discriminate H].
  repeat match type of H with
         | context [if ?c then _ else _] => destruct c; try discriminate H
         end.
  injection H as <-.
  apply userPrompt_no_angle; apply sanitizeString_no_angle.
Qed.

(** [prompt_has_no_angle_brackets] on a body full of angle brackets. *)
Lemma prompt_has_no_angle_brackets_witness :
  let req :=
    post [] (qlit "{'domain':'<b>fit</b>','audience':'a>b','difficulty':'easy','mode':'startup','skills':'<script>'}") in
  Forall no_angle
    match prepare req with
    | Ok (inr prompt) => prompt
    | _ => []
    end.
Proof.
  cbv zeta.
  apply (prompt_has_no_angle_brackets
           (post [] (qlit "{'domain':'<b>fit</b>','audience':'a>b','difficulty':'easy','mode':'startup','skills':'<script>'}"))).
  vm_compute. reflexivity.
Defined.

(** ** The enumerated fields and the numbers *)

Section Enumerated.

Lemma lower_unit_same (c d : N) :
  (97 <= d)%N -> (d <= 122)%N ->
  c = d \/ ((65 <= c)%N /\ (c <= 90)%N /\ d = (c + 32)%N) ->
  lower_unit c = d.
Proof.
  intros Hlo Hhi [-> | (H1 & H2 & ->)]; unfold lower_unit.
  - destruct (N.leb_spec 65 d), (N.leb_spec d 90); simpl; try lia.
    destruct (N.eqb_spec d 8490); [lia | reflexivity].
  - destruct (N.leb_spec 65 c), (N.leb_spec c 90); simpl; lia.
Qed.

Lemma toLowerCase_same (s w : list N) :
  same_word_ignoring_case s w ->
  Forall (fun d => (97 <= d)%N /\ (d <= 122)%N) w ->
  toLowerCase s = w.
Proof.
  unfold same_word_ignoring_case, toLowerCase.
  induction 1 as [|c d s w Hcd _ IH]; intros Hw; [reflexivity|].
  apply Forall_cons in Hw. destruct Hw as [[Hlo Hhi] Hw]. simpl.
  now rewrite (lower_unit_same c d Hlo Hhi Hcd), (IH Hw).
Qed.

Lemma includes_In (l : list (list N)) (w : list N) : In w l -> includes l w = true.
Proof.
  intros H. unfold includes. apply existsb_exists. exists w. split; [exact H|].
  unfold str_eqb. now apply bool_decide_eq_true.
Qed.

Lemma valid_words_lower (w : list N) :
  In w VALID_DIFFICULTIES \/ In w VALID_MODES ->
  Forall (fun d => (97 <= d)%N /\ (d <= 122)%N) w.
Proof.
  intros [H | H]; vm_compute in H;
    repeat (destruct H as [<- | H]; [repeat constructor; lia|]);
    contradiction.
Qed.

End Enumerated.

(** X9.  Difficulty and mode are matched without regard to the case of
    ASCII letters: a text that spells a word of [VALID_DIFFICULTIES] (of
    [VALID_MODES]) in any mix of upper and lower case passes the check. *)
Theorem enum_ignores_case (s w : list N) :
  same_word_ignoring_case s w ->
  (In w VALID_DIFFICULTIES -> includes VALID_DIFFICULTIES (toLowerCase s) = true)
  /\ (In w VALID_MODES -> includes VALID_MODES (toLowerCase s) = true).
Proof.
  intros H. split; intros Hw.
  - rewrite (toLowerCase_same s w H) by (apply valid_words_lower; now left).
    now apply includes_In.
  - rewrite (toLowerCase_same s w H) by (apply valid_words_lower; now right).
    now apply includes_In.
Qed.

(** [enum_ignores_case] on "Beginner", which is in both lists. *)
Lemma enum_ignores_case_witness :
  includes VALID_DIFFICULTIES (toLowerCase (lit "BeGiNnEr")) = true
  /\ includes VALID_MODES (toLowerCase (lit "BeGiNnEr")) = true.
Proof.
  assert (H : same_word_ignoring_case (lit "BeGiNnEr") (lit "beginner")).
  { unfold same_word_ignoring_case. simpl.
    repeat (constructor; [first [left; reflexivity | right; repeat split; lia]|]).
    constructor. }
  destruct (enum_ignores_case (lit "BeGiNnEr") (lit "beginner") H) as [Hd Hm].
  split; [apply Hd | apply Hm]; vm_compute; tauto.
Defined.

(** X10.  Whatever the body holds under [time_available_days] and
    [multi_idea_count], a number the handler goes on with lies in
    [[1, 365]] and in [[1, 5]]: the clamp sees to the numbers and the
    defaults 7 and 3 lie inside.  A key that is missing, [null], a boolean
    or an object without an own [toString] gives the default; an object
    with an own [toString] gives no number, the reading throws. *)
Theorem validated_numbers_in_range (v : option json) :
  let days := validateNumber v (of_Z 1) (of_Z MAX_DAYS) (of_Z 7) in
  let count := validateNumber v (of_Z 1) (of_Z MAX_IDEA_COUNT) (of_Z 3) in
  (forall x, days = Ok x ->
     num_leb (of_Z 1) x = true /\ num_leb x (of_Z MAX_DAYS) = true)
  /\ (forall x, count = Ok x ->
        num_leb (of_Z 1) x = true /\ num_leb x (of_Z MAX_IDEA_COUNT) = true)
  /\ (days = Throw <-> count = Throw)
  /\ (match v with
      | None | Some JNull | Some (JBool _) =>
          days = Ok (of_Z 7) /\ count = Ok (of_Z 3)
      | Some (JObj fields) =>
          match assoc (lit "toString") fields with
          | None => days = Ok (of_Z 7) /\ count = Ok (of_Z 3)
          | Some _ => days = Throw /\ count = Throw
          end
      | _ => True
      end).
Proof.
  cbv zeta. unfold validateNumber, mbind, result_bind.
  split; [|split; [|split]].
  - destruct (coerce_number v) as [num|]; [|discriminate]. intros x [= <-].
    destruct (isNaN num) eqn:E; [split; reflexivity|].
    now destruct (clamp_between num (of_Z 1) (of_Z MAX_DAYS) E
                    eq_refl eq_refl eq_refl) as (_ & ? & ?).
  - destruct (coerce_number v) as [num|]; [|discriminate]. intros x [= <-].
    destruct (isNaN num) eqn:E; [split; reflexivity|].
    now destruct (clamp_between num (of_Z 1) (of_Z MAX_IDEA_COUNT) E
                    eq_refl eq_refl eq_refl) as (_ & ? & ?).
  - destruct (coerce_number v); split; (discriminate || reflexivity).
  - destruct v as [[| [|] | | | |fields]|]; try exact I; try (split; reflexivity).
    unfold coerce_number, mbind, result_bind. cbn [String_of ToString].
    destruct (assoc (lit "toString") fields); split; reflexivity.
Qed.

(** ** The brace match of the fallback *)

Section Braces.

Implicit Types (s t u : list N) (c : N).

Lemma from_first_split c s :
  exists pre, s = pre ++ from_first c s /\ ~ In c pre.
Proof.
  induction s as [|x s (pre & E & Hp)]; simpl.
  - exists []. auto.
  - destruct (N.eqb_spec x c) as [->|Hx].
    + exists []. auto.
    + exists (x :: pre). simpl. split; [now f_equal|]. intros [?|?]; auto.
Qed.

Lemma from_first_head c s :
  from_first c s = [] \/ exists r, from_first c s = c :: r.
Proof.
  induction s as [|x s IH]; simpl; [now left|].
  destruct (N.eqb_spec x c) as [->|]; [right; eauto | exact IH].
Qed.

Lemma from_first_absent c s : ~ In c s -> from_first c s = [].
Proof.
  induction s as [|x s IH]; simpl; [reflexivity|]. intros H.
  destruct (N.eqb_spec x c) as [->|]; [exfalso; auto | apply IH; auto].
Qed.

Lemma up_to_last_None c s : up_to_last c s = None <-> ~ In c s.
Proof.
  induction s as [|x s IH]; simpl; [tauto|].
  destruct (up_to_last c s) as [u|].
  - split; [discriminate|]. intros H. exfalso. apply H. right.
    destruct (in_dec N.eq_dec c s) as [Hin|Hn]; [exact Hin|].
    now apply IH in Hn.
  - destruct (N.eqb_spec x c) as [->|Hx].
    + split; [discriminate|]. intros H. exfalso. auto.
    + split; [|reflexivity]. intros _ [?|?]; [congruence|].
      now apply (proj1 IH).
Qed.

Lemma up_to_last_Some c s u :
  up_to_last c s = Some u ->
  exists v post, u = v ++ [c] /\ s = u ++ post /\ ~ In c post.
Proof.
  revert u. induction s as [|x s IH]; simpl; intros u; [discriminate|].
  destruct (up_to_last c s) as [u'|] eqn:E.
  - intros [= <-]. destruct (IH u' eq_refl) as (v & post & -> & -> & Hp).
    exists (x :: v), post. simpl. rewrite <- !app_assoc. auto.
  - destruct (N.eqb_spec x c) as [->|]; [|discriminate]. intros [= <-].
    exists [], s. simpl. split; [reflexivity|]. split; [reflexivity|].
    now apply up_to_last_None.
Qed.

Lemma up_to_last_end c u : up_to_last c (u ++ [c]) = Some (u ++ [c]).
Proof.
  induction u as [|x u IH]; simpl; [now rewrite N.eqb_refl | now rewrite IH].
Qed.

(** The match, given where the first [{] and the last [}] stand. *)
Lemma brace_match_found (pre body post : list N) :
  ~ In 123%N pre -> ~ In 125%N post ->
  brace_match (pre ++ (123%N :: body ++ [125%N]) ++ post)
  = Some (123%N :: body ++ [125%N]).
Proof.
  intros Hpre Hpost. unfold brace_match.
  rewrite from_first_app, (from_first_absent _ _ Hpre), from_first_app.
  cbn [app from_first]. rewrite N.eqb_refl.
  change (123%N :: (body ++ [125%N]) ++ post)
    with (((123%N :: body) ++ [125%N]) ++ post).
  rewrite up_to_last_app by now apply up_to_last_None.
  apply (up_to_last_end 125 (123%N :: body)).
Qed.

End Braces.

(** X11.  The fallback's pattern [/\{[\s\S]*\}/] takes the text from the
    first [{] of the reply to its last [}]: when it matches, nothing before
    the match holds a [{] and nothing behind it a [}]; it fails exactly
    when no [}] stands behind a [{]. *)
Theorem brace_match_spec (s : list N) :
  match brace_match s with
  | Some m =>
      exists pre body post,
        s = pre ++ m ++ post /\ m = 123%N :: body ++ [125%N]
        /\ ~ In 123%N pre /\ ~ In 125%N post
  | None =>
      forall pre mid post, s <> pre ++ 123%N :: mid ++ 125%N :: post
  end.
Proof.
  unfold brace_match.
  destruct (from_first_split 123 s) as (pre & Es & Hpre).
  destruct (up_to_last 125 (from_first 123 s)) as [m|] eqn:E.
  - destruct (up_to_last_Some _ _ _ E) as (v & post & -> & Ef & Hpost).
    destruct (from_first_head 123 s) as [H0 | (r & Hr)].
    + rewrite H0 in Ef. destruct v; discriminate.
    + rewrite Hr in Ef.
      destruct v as [|x v]; simpl in Ef; [discriminate Ef|].
      injection Ef as Ex Ev. subst x.
      exists pre, v, post. repeat split; try assumption.
      rewrite Es at 1. rewrite Hr, Ev. reflexivity.
  - intros pre' mid post' Hs. apply up_to_last_None in E. apply E.
    rewrite Hs, from_first_app.
    destruct (from_first 123 pre') as [|x u].
    + cbn [from_first]. rewrite N.eqb_refl.
      right. apply in_or_app. right. now left.
    + apply in_or_app. right. right. apply in_or_app. right. now left.
Qed.

(** ** The cleaned text *)

Section Cleaned.

Implicit Types (p s t : list N).

Lemma strip_prefix_app_r p : forall s t r,
  strip_prefix p s = Some r -> strip_prefix p (s ++ t) = Some (r ++ t).
Proof.
  induction p as [|a p IH]; intros s t r; simpl.
  - now intros [= ->].
  - destruct s as [|c s]; [discriminate|]. simpl.
    destruct (a =? c)%N; [apply IH | discriminate].
Qed.

Lemma strip_prefix_cons (a : N) p (c : N) s :
  strip_prefix (a :: p) (c :: s) = if (a =? c)%N then strip_prefix p s else None.
Proof. reflexivity. Qed.

Lemma occurs_app_r p s t : occurs p s = true -> occurs p (s ++ t) = true.
Proof.
  induction s as [|c s IH]; [discriminate|]. cbn [occurs app].
  destruct (strip_prefix p (c :: s)) as [r|] eqn:E.
  - intros _. change (c :: s ++ t) with ((c :: s) ++ t).
    now rewrite (strip_prefix_app_r p _ t r E).
  - intros H. destruct (strip_prefix p (c :: s ++ t)); [reflexivity | now apply IH].
Qed.

Lemma occurs_app_l p s t : occurs p t = true -> occurs p (s ++ t) = true.
Proof.
  intros H. induction s as [|c s IH]; [exact H|]. cbn [occurs app].
  now destruct (strip_prefix p (c :: s ++ t)).
Qed.

Lemma occurs_trim p s : occurs p s = false -> occurs p (trim s) = false.
Proof.
  intros H. unfold trim.
  destruct (occurs p (trimEnd (trimStart s))) eqn:E; [|reflexivity].
  destruct (trimEnd_prefix (trimStart s)) as [q Hq].
  destruct (trimStart_suffix s) as [pre Hp].
  apply (occurs_app_r p _ q) in E. rewrite <- Hq in E.
  apply (occurs_app_l p pre) in E. rewrite <- Hp in E. congruence.
Qed.

(** What the scan leaves does not start with two backticks unless the text
    did. *)
Lemma remove_all_fence_two s :
  strip_prefix [96; 96]%N s = None ->
  strip_prefix [96; 96]%N (remove_all fence 0 s) = None.
Proof.
  unfold fence. destruct s as [|x [|y t]].
  - reflexivity.
  - intros _. unfold remove_all, match_len. cbn [strip_prefix].
    destruct (96 =? x)%N eqn:Ex; cbn [strip_prefix]; rewrite ?Ex; reflexivity.
  - intros H. rewrite (remove_all_unfold 96 [96; 96]%N (x :: y :: t)).
    rewrite !strip_prefix_cons in H |- *.
    destruct (96 =? x)%N eqn:Ex; [|now rewrite strip_prefix_cons, Ex].
    destruct (96 =? y)%N eqn:Ey; [discriminate|].
    rewrite (remove_all_unfold 96 [96; 96]%N (y :: t)).
    now rewrite !strip_prefix_cons, ?Ex, ?Ey, ?strip_prefix_cons, ?Ey.
Qed.

Lemma remove_all_fence_free : forall (n : nat) s, (length s <= n)%nat ->
  occurs fence (remove_all fence 0 s) = false.
Proof.
  induction n as [|n IH]; intros s Hn.
  - destruct s; [reflexivity | simpl in Hn; lia].
  - unfold fence at 2. rewrite (remove_all_unfold 96 [96; 96]%N s). fold fence.
    destruct (strip_prefix fence s) as [[|c r]|] eqn:E.
    + reflexivity.
    + apply strip_prefix_length in E. simpl in E.
      destruct (c =? 10)%N; apply IH; simpl; lia.
    + destruct s as [|c t]; [reflexivity|]. simpl in Hn.
      cbn [occurs]. rewrite (IH t) by lia.
      unfold fence at 1. unfold fence in E.
      rewrite strip_prefix_cons in E |- *.
      destruct (96 =? c)%N; [|reflexivity].
      now rewrite (remove_all_fence_two t E).
Qed.

Lemma trimStart_fixed s :
  (forall c, head s = Some c -> is_js_space c = false) -> trimStart s = s.
Proof.
  destruct s as [|c s]; [reflexivity|]. intros H. simpl.
  now rewrite (H c eq_refl).
Qed.

Lemma trimEnd_idempotent s : trimEnd (trimEnd s) = trimEnd s.
Proof.
  induction s as [|c s IH]; [reflexivity|]. simpl.
  destruct (trimEnd s) as [|x r] eqn:E.
  - destruct (is_js_space c) eqn:Ec; [reflexivity|]. simpl. now rewrite Ec.
  - cbn [trimEnd] in IH |- *. now rewrite IH.
Qed.

Lemma trim_idempotent s : trim (trim s) = trim s.
Proof.
  unfold trim at 1. rewrite (trimStart_fixed (trim s)) by apply trim_head.
  unfold trim. apply trimEnd_idempotent.
Qed.

End Cleaned.

(** X12.  The text handed to [JSON.parse] never holds three backticks in a
    row, and cleaning it once more changes nothing. *)
Theorem cleanContent_idempotent (s : list N) :
  occurs fence (cleanContent s) = false
  /\ cleanContent (cleanContent s) = cleanContent s.
Proof.
  assert (H : occurs fence (cleanContent s) = false).
  { unfold cleanContent. apply occurs_trim.
    now apply (remove_all_fence_free (length (remove_all fence_json 0 s))). }
  split; [exact H|].
  rewrite (cleanContent_no_fence _ H). unfold cleanContent. apply trim_idempotent.
Qed.

(** ** The outcomes of the recovery *)

Section Outcomes.

Implicit Types (s : list N) (f : nat).

Lemma skip_ws_In s (c : N) r : skip_ws s = c :: r -> In c s.
Proof.
  induction s as [|x s IH]; simpl; [discriminate|].
  destruct (is_json_ws x); [right; now apply IH|].
  intros [= -> _]. now left.
Qed.

Lemma parse_elements_array f : forall s acc v r,
  parse_elements f s acc = Some (v, r) -> exists items, v = JArr items.
Proof.
  induction f as [|f IH]; intros s acc v r H; [discriminate|].
  cbn [parse_elements] in H.
  repeat match type of H with
         | context [match ?x with _ => _ end] =>
             destruct x eqn:?; try discriminate H
         end.
  - now apply IH in H.
  - injection H as <- _. eauto.
Qed.

(** Only a text with a [{] parses to an object. *)
Lemma parse_value_object f s (fields : list (list N * json)) r :
  parse_value f s = Some (JObj fields, r) -> In 123%N s.
Proof.
  destruct f as [|f]; [discriminate|]. cbn [parse_value]. intros H.
  destruct (skip_ws s) as [|c r0] eqn:E; [discriminate|].
  destruct (N.eqb_spec c 123) as [->|_]; [now apply skip_ws_In in E|].
  exfalso.
  repeat match type of H with
         | context [match ?x with _ => _ end] =>
             destruct x eqn:?; try discriminate H
         end.
  apply parse_elements_array in H. destruct H as [items H]. discriminate H.
Qed.

Lemma remove_all_In (p : list N) (x : N) : forall s (k : nat),
  In x (remove_all p k s) -> In x s.
Proof.
  induction s as [|c s IH]; intros k; simpl; [tauto|].
  destruct k as [|k]; [|intros H; right; now apply (IH k)].
  destruct (match_len p (c :: s)) as [[|n]|].
  - intros [?|H]; [now left | right; now apply (IH 0%nat)].
  - intros H. right. now apply (IH n).
  - intros [?|H]; [now left | right; now apply (IH 0%nat)].
Qed.

Lemma trim_In (x : N) s : In x (trim s) -> In x s.
Proof.
  unfold trim. intros H.
  destruct (trimEnd_prefix (trimStart s)) as [q Hq].
  destruct (trimStart_suffix s) as [pre Hp].
  rewrite Hp. apply in_or_app. right. rewrite Hq. apply in_or_app. now left.
Qed.

Lemma cleanContent_In (x : N) s : In x (cleanContent s) -> In x s.
Proof.
  unfold cleanContent. intros H.
  apply trim_In, remove_all_In, remove_all_In in H. exact H.
Qed.

Lemma direct_parse_needs_brace s (parsedData : json) :
  direct_parse s = Ok parsedData -> In 123%N s.
Proof.
  intros H. destruct (direct_parse_has_ideas s parsedData H) as (fields & items & -> & _).
  unfold direct_parse in H.
  destruct (JSON_parse (cleanContent s)) as [pd|] eqn:E; [|discriminate].
  unfold has_ideas_array, mbind, result_bind in H.
  destruct (get_prop (Some pd) (lit "ideas")) as [[[| | | | |]|]|];
    try discriminate H.
  injection H as ->.
  unfold JSON_parse in E.
  destruct (parse_value (length (cleanContent s)) (cleanContent s))
    as [[v r]|] eqn:P; [|discriminate].
  destruct (skip_ws r); [|discriminate]. injection E as ->.
  apply cleanContent_In. now apply parse_value_object in P.
Qed.

Lemma direct_parse_ideas s (fields : list (list N * json)) (items : list json) :
  JSON_parse (cleanContent s) = Some (JObj fields) ->
  assoc (lit "ideas") fields = Some (JArr items) ->
  direct_parse s = Ok (JObj fields).
Proof.
  intros E A. unfold direct_parse. rewrite E.
  unfold has_ideas_array, mbind, result_bind, get_prop. now rewrite A.
Qed.

End Outcomes.

(** X13.  What the recovery answers.  A reply that cleans to a JSON object
    with a list under [ideas] is answered 200 with that object as it was
    parsed.  A reply without any [{] is answered 500 "Failed to generate
    ideas".  When the direct parse fails and the reply is some text without
    [{], then an object text from [{] to [}], then some text without [}],
    the answer is 200 with the parse of the object text, and 500 "Failed to
    process response" when the object text does not parse. *)
Theorem recovery_outcomes (content : list N) :
  (forall fields items,
      JSON_parse (cleanContent content) = Some (JObj fields) ->
      assoc (lit "ideas") fields = Some (JArr items) ->
      reply_response content = success_response (JObj fields))
  /\ (~ In 123%N content ->
      reply_response content
      = json_error 500 "Failed to generate ideas. Please try again.")
  /\ (forall pre body post,
        content = pre ++ (123%N :: body ++ [125%N]) ++ post ->
        ~ In 123%N pre -> ~ In 125%N post ->
        direct_parse content = Throw ->
        reply_response content
        = match JSON_parse (123%N :: body ++ [125%N]) with
          | Some parsedData => success_response parsedData
          | None => json_error 500 "Failed to process response. Please try again."
          end).
Proof.
  split; [|split].
  - intros fields items E A. unfold reply_response, recover.
    now rewrite (direct_parse_ideas content fields items E A).
  - intros Hn. unfold reply_response, recover.
    destruct (direct_parse content) as [pd|] eqn:D.
    + exfalso. apply Hn. now apply direct_parse_needs_brace with pd.
    + unfold brace_match. now rewrite (from_first_absent _ _ Hn).
  - intros pre body post -> Hpre Hpost D. unfold reply_response, recover.
    rewrite D, (brace_match_found pre body post Hpre Hpost).
    now destruct (JSON_parse (123%N :: body ++ [125%N])).
Qed.

(** ** What a response can say *)

Section Bodies.

Implicit Types (m : gmap (list N) RateLimitRecord) (req : Request) (r : Response).

Ltac fixed_error :=
  right; do 2 eexists; split; [reflexivity|];
  split; [simpl; tauto | unfold error_messages; simpl; tauto].

Lemma reply_response_answer (content : list N) : answer (reply_response content).
Proof.
  unfold reply_response, recover.
  destruct (direct_parse content); [left; eauto|].
  destruct (brace_match content) as [js|]; [|fixed_error].
  destruct (JSON_parse js); [left; eauto | fixed_error].
Qed.

Lemma handle_gateway_answer (f : FetchResult) r :
  handle_gateway f = Ok r -> answer r.
Proof.
  unfold handle_gateway. destruct f as [|st text]; [discriminate|].
  destruct (response_ok st); cbn [negb].
  - destruct text as [t|]; [|discriminate].
    destruct (JSON_parse t) as [data|]; [|discriminate].
    unfold mbind, result_bind.
    destruct (get_prop (Some data) (lit "choices")) as [choices|];
      cbv beta iota; [|discriminate].
    destruct (get_index0 choices) as [first|]; cbv beta iota; [|discriminate].
    destruct (get_prop first (lit "message")) as [message|];
      cbv beta iota; [|discriminate].
    destruct (get_prop message (lit "content")) as [[[| | | s | |]|]|];
      cbv beta iota; try discriminate.
    intros [= <-]. apply reply_response_answer.
  - destruct text; [|discriminate]. intros [= <-].
    destruct (st =? 429); [|destruct (st =? 402)]; fixed_error.
Qed.

Lemma prepare_answer req r : prepare req = Ok (inl r) -> answer r.
Proof.
  unfold prepare. destruct (too_large req); [intros [= <-]; fixed_error|].
  destruct (JSON_parse (body_text req)) as [b|]; [|discriminate].
  unfold mbind, result_bind.
  repeat match goal with
         | |- context [match get_prop ?v ?n with _ => _ end] =>
             destruct (get_prop v n); cbv beta iota; [|discriminate]
         end.
  repeat match goal with
         | |- context [match validateNumber ?v ?lo ?hi ?d with _ => _ end] =>
             destruct (validateNumber v lo hi d); cbv beta iota; [|discriminate]
         end.
  repeat match goal with
         | |- context [if ?c then _ else _] => destruct c
         end; intros [= <-]; fixed_error.
Qed.

Lemma try_block_answer gateway req r : try_block gateway req = Ok r -> answer r.
Proof.
  unfold try_block, mbind, result_bind.
  destruct (prepare req) as [[early|prompt]|] eqn:E; [| |discriminate].
  - intros [= <-]. now apply prepare_answer with req.
  - apply handle_gateway_answer.
Qed.

Lemma handler_answer now gateway req m :
  (handler now gateway req m).1 = preflight_response
  \/ (handler now gateway req m).1 = rate_limited_response
  \/ answer (handler now gateway req m).1.
Proof.
  destruct (str_eqb (method req) (lit "OPTIONS")) eqn:E.
  - left. unfold handler. now rewrite E.
  - right. rewrite handler_not_options by assumption. cbv zeta. cbn [fst].
    destruct (allowed _); [|now left]. right.
    destruct (try_block gateway req) eqn:T.
    + now apply try_block_answer with gateway req.
    + fixed_error.
Qed.

End Bodies.

(** X14.  A response of the handler says nothing of its own making beyond
    a fixed message: with status 200 it is the preflight answer or the
    parsed reply; with any other status its body is [{error: msg}] for one
    of the eleven messages written in the source, sent as JSON. *)
Theorem error_bodies_are_fixed (now : Z) (gateway : list N -> FetchResult)
    (req : Request) (m : gmap (list N) RateLimitRecord) :
  let r := (handler now gateway req m).1 in
  (status r = 200
   /\ (r = preflight_response \/ exists parsedData, r = success_response parsedData))
  \/ (status r <> 200
      /\ exists msg,
           In msg error_messages
           /\ body r = Some (JObj [(lit "error", JStr (lit msg))])
           /\ header_of "Content-Type" (headers r) = Some "application/json"%string).
Proof.
  cbv zeta.
  destruct (handler_answer now gateway req m)
    as [-> | [-> | [[pd ->] | (st & msg & -> & Hst & Hmsg)]]].
  - left. split; [reflexivity | now left].
  - right. split; [discriminate|].
    exists "Rate limit exceeded. Please try again later."%string.
    split; [simpl; tauto | split; reflexivity].
  - left. split; [reflexivity | right; eauto].
  - right. split; [simpl in Hst; simpl; lia|].
    exists msg. split; [exact Hmsg | split; reflexivity].
Qed.

(** X15.  A request that is not OPTIONS is answered 200 only out of a
    gateway completion: the limiter allowed it, validation built a prompt,
    the gateway answered that prompt with a success status and a JSON body
    whose [choices[0].message.content] is a string, and the response is
    what the recovery makes of that string. *)
Theorem success_needs_completion (now : Z) (gateway : list N -> FetchResult)
    (req : Request) (m : gmap (list N) RateLimitRecord) :
  str_eqb (method req) (lit "OPTIONS") = false ->
  status (handler now gateway req m).1 = 200 ->
  allowed (checkRateLimit now (getRateLimitKey req) m).1 = true
  /\ exists prompt st text data choices first message content,
       prepare req = Ok (inr prompt)
       /\ gateway prompt = FetchResponse st (Some text)
       /\ response_ok st = true
       /\ JSON_parse text = Some data
       /\ get_prop (Some data) (lit "choices") = Ok choices
       /\ get_index0 choices = Ok first
       /\ get_prop first (lit "message") = Ok message
       /\ get_prop message (lit "content") = Ok (Some (JStr content))
       /\ (handler now gateway req m).1 = reply_response content.
Proof.
  intros Hm. rewrite handler_not_options by assumption. cbv zeta. cbn [fst].
  destruct (allowed _); [|discriminate]. split; [reflexivity|].
  revert H. unfold try_block, mbind, result_bind.
  destruct (prepare req) as [[early|prompt]|] eqn:E; [| |discriminate].
  - destruct (prepare_early req early E) as [[-> _] | (msg & -> & _)]; discriminate.
  - unfold handle_gateway.
    destruct (gateway prompt) as [|st text] eqn:G; [discriminate|].
    destruct (response_ok st) eqn:O; cbn [negb].
    + destruct text as [t|]; [|discriminate].
      destruct (JSON_parse t) as [data|] eqn:J; [|discriminate].
      unfold mbind, result_bind.
      destruct (get_prop (Some data) (lit "choices")) as [choices|] eqn:G1;
        cbv beta iota; [|discriminate].
      destruct (get_index0 choices) as [first|] eqn:G2;
        cbv beta iota; [|discriminate].
      destruct (get_prop first (lit "message")) as [message|] eqn:G3;
        cbv beta iota; [|discriminate].
      destruct (get_prop message (lit "content")) as [[[| | | s | |]|]|] eqn:G4;
        cbv beta iota; try discriminate.
      intros _. exists prompt, st, t, data, choices, first, message, s.
      repeat split; assumption.
    + destruct text; [|discriminate].
      destruct (st =? 429); [|destruct (st =? 402)]; discriminate.
Qed.

(** [success_needs_completion] on a fenced reply. *)
Lemma success_needs_completion_witness :
  allowed (checkRateLimit 0 (getRateLimitKey (post [] sample_body)) ∅).1 = true
  /\ exists prompt st text data choices first message content,
       prepare (post [] sample_body) = Ok (inr prompt)
       /\ completion (qlit "'```json\n{\'ideas\': [1]}\n```'") prompt
          = FetchResponse st (Some text)
       /\ response_ok st = true
       /\ JSON_parse text = Some data
       /\ get_prop (Some data) (lit "choices") = Ok choices
       /\ get_index0 choices = Ok first
       /\ get_prop first (lit "message") = Ok message
       /\ get_prop message (lit "content") = Ok (Some (JStr content))
       /\ (handler 0 (completion (qlit "'```json\n{\'ideas\': [1]}\n```'"))
             (post [] sample_body) ∅).1
          = reply_response content.
Proof.
  apply (success_needs_completion 0
           (completion (qlit "'```json\n{\'ideas\': [1]}\n```'"))
           (post [] sample_body) ∅); reflexivity.
Defined.

(** ** The page *)

Section Page.


(** The two ways [handleGenerate] ends. *)
Lemma handleGenerate_cases (f : ClientFetch) :
  (exists st fields items,
      f = ClientResponse st (Some (JObj fields))
      /\ response_ok st = true
      /\ assoc (lit "ideas") fields = Some (JArr items)
      /\ handleGenerate f
         = ({| ideas := items; isLoading := false |},
            [ToastSuccess (lit "3 amazing ideas generated!")]))
  \/ (exists msg,
        handleGenerate f = ({| ideas := []; isLoading := false |}, [ToastError msg])).
Proof.
  unfold handleGenerate, generate_try.
  destruct f as [|st [data|]]; try (right; eauto; fail);
    destruct (response_ok st) eqn:O; cbn [negb]; try (right; eauto; fail).
  - destruct data as [| | | | |fields]; try (right; eauto; fail).
    unfold get_prop.
    destruct (assoc (lit "ideas") fields) as [[| | | |items|]|] eqn:A;
      try (right; eauto; fail).
    left. exists st, fields, items. auto.
  - right.
    destruct (get_prop (Some data) (lit "error")) as [e|];
      [destruct (truthy e); [destruct (String_of e)|]|]; eauto.
Qed.

End Page.

(** X16.  [handleGenerate] always ends with [isLoading] off and exactly one
    toast.  It shows ideas only when the response has a success status and
    its JSON body holds a list under [ideas], and then it shows that list;
    in every other case the list of ideas is empty and the toast is an
    error.  For a failure status with an object as body, the toast is
    "Failed to generate ideas" when [error] is missing or falsy; it is
    [String(error)] when [error] is truthy and has such a text, the very
    string when [error] is one; and when [String(error)] throws a TypeError
    (an object with an own [toString]) the toast carries the message of
    that error, which is the runtime's. *)
Theorem handleGenerate_spec (f : ClientFetch) :
  isLoading (handleGenerate f).1 = false
  /\ length (handleGenerate f).2 = 1%nat
  /\ ((exists st fields items,
          f = ClientResponse st (Some (JObj fields))
          /\ response_ok st = true
          /\ assoc (lit "ideas") fields = Some (JArr items)
          /\ handleGenerate f
             = ({| ideas := items; isLoading := false |},
                [ToastSuccess (lit "3 amazing ideas generated!")]))
      \/ (ideas (handleGenerate f).1 = []
          /\ exists msg, (handleGenerate f).2 = [ToastError msg]))
  /\ (forall st fields,
        f = ClientResponse st (Some (JObj fields)) -> response_ok st = false ->
        let e := assoc (lit "error") fields in
        (truthy e = false ->
         (handleGenerate f).2 = [ToastError (Text (lit "Failed to generate ideas"))])
        /\ (forall s, truthy e = true -> String_of e = Ok s ->
              (handleGenerate f).2 = [ToastError (Text s)])
        /\ (truthy e = true -> String_of e = Throw ->
            (handleGenerate f).2 = [ToastError RuntimeMessage])
        /\ (forall c s, e = Some (JStr (c :: s)) ->
              (handleGenerate f).2 = [ToastError (Text (c :: s))])
        /\ (forall inner, e = Some (JObj inner) ->
              (handleGenerate f).2
              = [ToastError (match assoc (lit "toString") inner with
                             | Some _ => RuntimeMessage
                             | None => Text (lit "[object Object]")
                             end)])).
Proof.
  split; [|split; [|split]].
  - destruct (handleGenerate_cases f) as [(st & fields & items & _ & _ & _ & ->) | [msg ->]];
      reflexivity.
  - destruct (handleGenerate_cases f) as [(st & fields & items & _ & _ & _ & ->) | [msg ->]];
      reflexivity.
  - destruct (handleGenerate_cases f) as [H | [msg H]].
    + now left.
    + right. rewrite H. split; [reflexivity | eauto].
  - intros st fields -> O. cbv zeta. unfold handleGenerate, generate_try.
    rewrite O. cbn [negb]. unfold get_prop.
    split; [|split; [|split; [|split]]].
    + now intros ->.
    + now intros s -> ->.
    + now intros -> ->.
    + now intros c s ->.
    + intros inner ->. cbn [truthy String_of ToString].
      now destruct (assoc (lit "toString") inner).
Qed.


(** ** The size check, the sanitizer and the keys once more *)

Section Edges.

Implicit Types (m : gmap (list N) RateLimitRecord) (req : Request) (s : list N).

Lemma too_large_declared req :
  too_large req = true ->
  exists cl n,
    header req "content-length" = Some cl
    /\ parseInt10 cl = of_Z n /\ MAX_REQUEST_SIZE < n.
Proof.
  unfold too_large.
  destruct (header req "content-length") as [[|c r]|]; try discriminate.
  intros H. exists (c :: r).
  destruct (parseInt10_integer (c :: r)) as [E | [n E]]; rewrite E in H;
    [discriminate|].
  exists n. split; [reflexivity|]. split; [exact E|].
  unfold of_Z, num_gtb, num_leb, dec_compare, MAX_REQUEST_SIZE in *.
  change (10 ^ (0 - Z.min 0 0)) with 1 in H. rewrite !Z.mul_1_r in H.
  destruct (Z.compare_spec n 10000); (discriminate || lia).
Qed.

Lemma try_block_413 gateway req (r : Response) :
  try_block gateway req = Ok r -> status r = 413 -> too_large req = true.
Proof.
  intros T Hs.
  unfold try_block, mbind, result_bind in T.
  destruct (prepare req) as [[early|prompt]|] eqn:E; [| |discriminate].
  - injection T as <-.
    destruct (prepare_early req early E) as [[_ H] | (msg & -> & _)];
      [exact H | discriminate].
  - destruct (handle_gateway_answer _ _ T) as [[pd ->] | (st & msg & -> & _ & _)];
      [discriminate|].
    exfalso. revert T Hs. unfold handle_gateway.
    destruct (gateway prompt) as [|st' text]; [discriminate|].
    destruct (response_ok st'); cbn [negb].
    + destruct text as [t|]; [|discriminate].
      destruct (JSON_parse t) as [data|]; [|discriminate].
      unfold mbind, result_bind.
      destruct (get_prop (Some data) (lit "choices")) as [choices|];
        cbv beta iota; [|discriminate].
      destruct (get_index0 choices) as [first|]; cbv beta iota; [|discriminate].
      destruct (get_prop first (lit "message")) as [message|];
        cbv beta iota; [|discriminate].
      destruct (get_prop message (lit "content")) as [[[| | | c | |]|]|];
        cbv beta iota; try discriminate.
      intros [= E']. intros Hs.
      destruct (reply_response_status c) as [H1 | H1];
        rewrite E' in H1; simpl in *; congruence.
    + destruct text; [|discriminate].
      destruct (st' =? 429); [|destruct (st' =? 402)]; intros [= <-]; discriminate.
Qed.

Lemma strip_angles_fixed s : Forall no_angle s -> strip_angles s = s.
Proof.
  induction s as [|c s IH]; [reflexivity|]. intros H.
  apply Forall_cons in H. destruct H as [[H1 H2] H].
  unfold strip_angles in *. cbn [List.filter]. unfold is_angle at 1.
  destruct (N.eqb_spec c 60); [contradiction|].
  destruct (N.eqb_spec c 62); [contradiction|]. cbn [orb negb].
  now rewrite (IH H).
Qed.

End Edges.

(** X18.  The size check looks at the declared length only: a request is
    answered 413 only if it carries a [content-length] header whose leading
    integer is above 10,000.  A request without that header, or with one
    that does not start with a number, is never refused for its size. *)
Theorem too_large_needs_declaration (now : Z) (gateway : list N -> FetchResult)
    (req : Request) (m : gmap (list N) RateLimitRecord) :
  status (handler now gateway req m).1 = 413 ->
  exists cl n,
    header req "content-length" = Some cl
    /\ parseInt10 cl = of_Z n /\ MAX_REQUEST_SIZE < n.
Proof.
  intros H. apply too_large_declared.
  destruct (str_eqb (method req) (lit "OPTIONS")) eqn:E.
  - unfold handler in H. rewrite E in H. discriminate H.
  - rewrite handler_not_options in H by assumption. cbv zeta in H. cbn [fst] in H.
    destruct (allowed _); [|discriminate H].
    destruct (try_block gateway req) as [r|] eqn:T; [|discriminate H].
    now apply try_block_413 with gateway r.
Qed.

(** [too_large_needs_declaration] on a request that declares 10,001 bytes. *)
Lemma too_large_needs_declaration_witness :
  exists cl n,
    header (post [("content-length", "10001")]%string sample_body) "content-length"
    = Some cl
    /\ parseInt10 cl = of_Z n /\ MAX_REQUEST_SIZE < n.
Proof.
  apply (too_large_needs_declaration 0 (gateway_status 200)
           (post [("content-length", "10001")]%string sample_body) ∅).
  reflexivity.
Defined.

(** X19.  The sanitizer leaves a clean text alone: a string without [<]
    and [>], without white space at either end and of at most 500 code
    units comes back unchanged. *)
Theorem sanitizeString_fixed (s : list N) :
  Forall no_angle s ->
  (forall c, head s = Some c -> is_js_space c = false) ->
  (forall c, last s = Some c -> is_js_space c = false) ->
  (length s <= 500)%nat ->
  sanitizeString (Some (JStr s)) = s.
Proof.
  intros Ha Hh Hl Hn. unfold sanitizeString, slice0, MAX_STRING_LENGTH, trim.
  rewrite (strip_angles_fixed s Ha), (trimStart_fixed s Hh), (trimEnd_fixed s Hl).
  now apply take_ge.
Qed.

(** [sanitizeString_fixed] on "machine learning". *)
Lemma sanitizeString_fixed_witness :
  sanitizeString (Some (JStr (lit "machine learning"))) = lit "machine learning".
Proof.
  apply sanitizeString_fixed.
  - apply no_angle_lit. reflexivity.
  - intros c [= <-]. reflexivity.
  - intros c [= <-]. reflexivity.
  - simpl. lia.
Defined.

(** X20.  The limiter counts per key and the key is read off the request's
    own headers: calls whose keys are all different and not yet in the map
    are all allowed, however many they are and whenever they come. *)
Theorem distinct_keys_never_denied (calls : list (Z * list N))
    (m : gmap (list N) RateLimitRecord) :
  NoDup (map snd calls) ->
  (forall k, In k (map snd calls) -> m !! k = None) ->
  run_answers calls m = replicate (length calls) true.
Proof.
  revert m. induction calls as [|[now key] rest IH]; intros m Hd Hm; [reflexivity|].
  simpl in *. apply NoDup_cons in Hd. destruct Hd as [Hk Hd].
  rewrite checkRateLimit_fresh by (left; apply Hm; now left).
  cbn [fst snd allowed]. f_equal. apply IH; [exact Hd|].
  intros k Hin. rewrite lookup_insert_ne.
  - apply Hm. now right.
  - intros ->. apply Hk. now apply list_elem_of_In.
Qed.

(** [distinct_keys_never_denied] on three callers at one time. *)
Lemma distinct_keys_never_denied_witness :
  run_answers [(0, lit "a"); (0, lit "b"); (0, lit "c")] ∅ = [true; true; true].
Proof.
  apply (distinct_keys_never_denied [(0, lit "a"); (0, lit "b"); (0, lit "c")] ∅).
  - apply (bool_decide_unpack (NoDup _)). vm_compute. exact I.
  - intros k _. apply lookup_empty.
Defined.
